(** * Guitar scale finder: the music-theory core of [fretboard_core.py]

    A shallow embedding of the note normaliser, the degree parser, the two
    text resolvers and the scale generator, with the properties the
    specification states about them; then of the inlay frets, the renderer
    and its marker loop, the scale generator and [main] of
    [fretboard_plot.py] and [_compute_notes] of [fretboard_gui.py], with
    properties read off the code.

    Modelling conventions.
    - A Python [str] is a [string]: a sequence of bytes, read as UTF-8.  The
      [str] methods the program calls ([strip], [split], [upper], [lower],
      [isdigit]) are modelled on the ASCII range; a byte above 127 is
      neither white space nor a digit and has no case.  The two musical
      signs the degree parser rewrites are matched by their UTF-8 encodings.
    - A Python [int] is a [Z]; [%] with a positive modulus is [Z.modulo].
      [int(...)] of a digit run is unbounded.
    - A [dict] is a [gmap], a [set] is a [gset], a [list] is a [list].
    - A raised exception is the [Raise] branch of [result]. *)

From Stdlib Require Import ZArith Ascii String.
From stdpp Require Import base decidable option list gmap strings sorting.

Local Open Scope Z_scope.

(** ** Exceptions *)

Inductive exn : Type :=
  | ValueError (msg : string)
  | KeyError
  | IndexError.

Inductive result (A : Type) : Type :=
  | Ok (a : A)
  | Raise (e : exn).

Arguments Ok {A} a.
Arguments Raise {A} e.

(** Sequencing stops at the first exception; [x ← r; k] is stdpp's
    notation for it. *)
Global Instance result_bind : MBind result := λ A B k r,
  match r with
  | Ok a => k a
  | Raise e => Raise e
  end.

Global Instance result_ret : MRet result := λ A a, Ok a.

(** The value a call returns, if it returns. *)
Definition value {A : Type} (r : result A) : option A :=
  match r with Ok a => Some a | Raise _ => None end.

Definition raises_value_error {A : Type} (r : result A) : Prop :=
  ∃ msg, r = Raise (ValueError msg).

(** ** The [str] methods the program uses *)

Module Str.

(** [str.isspace] on one ASCII character: tab, line feed, vertical tab,
    form feed, carriage return, the four separators 28..31 and space. *)
Definition is_space (c : ascii) : bool :=
  match c with
  | "009" | "010" | "011" | "012" | "013"
  | "028" | "029" | "030" | "031" | " " => true
  | _ => false
  end%char.

Definition isdigit (c : ascii) : bool :=
  match c with
  | "0" | "1" | "2" | "3" | "4" | "5" | "6" | "7" | "8" | "9" => true
  | _ => false
  end%char.

Definition digit_value (c : ascii) : Z :=
  match c with
  | "1" => 1 | "2" => 2 | "3" => 3 | "4" => 4 | "5" => 5
  | "6" => 6 | "7" => 7 | "8" => 8 | "9" => 9 | _ => 0
  end%char.

Definition upper_char (c : ascii) : ascii :=
  let n := nat_of_ascii c in
  if (97 <=? n)%nat && (n <=? 122)%nat then ascii_of_nat (n - 32) else c.

Definition lower_char (c : ascii) : ascii :=
  let n := nat_of_ascii c in
  if (65 <=? n)%nat && (n <=? 90)%nat then ascii_of_nat (n + 32) else c.

Fixpoint map (f : ascii → ascii) (s : string) : string :=
  match s with
  | EmptyString => EmptyString
  | String c s' => String (f c) (map f s')
  end.

Definition upper : string → string := map upper_char.
Definition lower : string → string := map lower_char.

Fixpoint lstrip (s : string) : string :=
  match s with
  | EmptyString => EmptyString
  | String c s' => if is_space c then lstrip s' else s
  end.

Fixpoint rstrip (s : string) : string :=
  match s with
  | EmptyString => EmptyString
  | String c s' =>
      match rstrip s' with
      | EmptyString => if is_space c then EmptyString else String c EmptyString
      | r => String c r
      end
  end.

Definition strip (s : string) : string := rstrip (lstrip s).

(** [s.startswith(p)] *)
Fixpoint startswith (p s : string) : bool :=
  match p, s with
  | EmptyString, _ => true
  | String a p', String b s' => if decide (a = b) then startswith p' s' else false
  | String _ _, EmptyString => false
  end.

(** [s.replace(old, new)] for a non-empty [old]: occurrences are taken
    from the left and do not overlap.  [skip] counts the characters of a
    matched occurrence that are still to be passed over. *)
Fixpoint replace_go (old new : string) (skip : nat) (s : string) : string :=
  match s with
  | EmptyString => EmptyString
  | String c s' =>
      match skip with
      | S k => replace_go old new k s'
      | O =>
          if startswith old s
          then new +:+ replace_go old new (Nat.pred (String.length old)) s'
          else String c (replace_go old new O s')
      end
  end.

Definition replace (old new s : string) : string := replace_go old new O s.

(** [s.split()] with no argument: the maximal runs of characters that are
    not white space.  [cur] is the run being read. *)
Fixpoint split_go (cur : string) (s : string) : list string :=
  match s with
  | EmptyString => match cur with EmptyString => [] | _ => [cur] end
  | String c s' =>
      if is_space c
      then match cur with
           | EmptyString => split_go EmptyString s'
           | _ => cur :: split_go EmptyString s'
           end
      else split_go (cur +:+ String c EmptyString) s'
  end.

Definition split (s : string) : list string := split_go EmptyString s.

(** The longest prefix whose characters satisfy [p], and the rest: what
    a loop [while i < n and p(t[i]): i += 1] leaves behind and ahead. *)
Fixpoint span (p : ascii → bool) (s : string) : string * string :=
  match s with
  | EmptyString => (EmptyString, EmptyString)
  | String c s' =>
      if p c then let '(a, b) := span p s' in (String c a, b)
      else (EmptyString, s)
  end.

Fixpoint all (p : ascii → bool) (s : string) : bool :=
  match s with
  | EmptyString => true
  | String c s' => p c && all p s'
  end.

Fixpoint fold {A : Type} (f : A → ascii → A) (a : A) (s : string) : A :=
  match s with
  | EmptyString => a
  | String c s' => fold f (f a c) s'
  end.

(** [int(s)] on a run of ASCII digits. *)
Definition int (s : string) : Z := fold (λ acc c, 10 * acc + digit_value c) 0 s.

End Str.

(** ** Module constants *)

Definition CHROMATIC_SHARPS : list string :=
  ["C"; "C#"; "D"; "D#"; "E"; "F"; "F#"; "G"; "G#"; "A"; "A#"; "B"].

Definition CHROMATIC_FLATS : list string :=
  ["C"; "Db"; "D"; "Eb"; "E"; "F"; "Gb"; "G"; "Ab"; "A"; "Bb"; "B"].

Definition SHARP_TO_FLAT : gmap string string :=
  list_to_map [("C#", "Db"); ("D#", "Eb"); ("F#", "Gb"); ("G#", "Ab"); ("A#", "Bb")].

Definition FLAT_TO_SHARP : gmap string string :=
  list_to_map [("Db", "C#"); ("Eb", "D#"); ("Fb", "E"); ("Gb", "F#");
               ("Ab", "G#"); ("Bb", "A#"); ("Cb", "B")].

Definition ENHARMONIC : gmap string string :=
  list_to_map [("B#", "C"); ("E#", "F")].

(** [{n: i for i, n in enumerate(names)}] *)
Definition enumerate_index (names : list string) : gmap string Z :=
  foldl (λ d p, <[p.2 := p.1]> d) ∅ (imap (λ i n, (Z.of_nat i, n)) names).

Definition NOTE_TO_INDEX_SHARPS : gmap string Z := enumerate_index CHROMATIC_SHARPS.
Definition NOTE_TO_INDEX_FLATS : gmap string Z := enumerate_index CHROMATIC_FLATS.

Definition DEGREE_BASE_OFFSETS : gmap Z Z :=
  list_to_map [(1, 0); (2, 2); (3, 4); (4, 5); (5, 7); (6, 9); (7, 11)].

(** [d[k]]: a missing key raises [KeyError]. *)
Definition dict_get {K V : Type} `{Countable K} (d : gmap K V) (k : K) : result V :=
  match d !! k with
  | Some v => Ok v
  | None => Raise KeyError
  end.

(** [d.get(k, default)] *)
Definition dict_get_default {K V : Type} `{Countable K} (d : gmap K V) (k : K) (default : V) : V :=
  match d !! k with
  | Some v => v
  | None => default
  end.

(** [l[i]] for an index that is not negative: out of range raises
    [IndexError]. *)
Definition list_get {A : Type} (l : list A) (i : Z) : result A :=
  match l !! Z.to_nat i with
  | Some x => Ok x
  | None => Raise IndexError
  end.

(** ** [normalize_note] *)

(** Lines 25 to 31: keep the first character and, when the second one is
    a sharp sign or an upper-case B, that accidental; whatever follows is
    dropped. *)
Definition letter_and_accidental (n : string) : string :=
  match n with
  | String c0 (String c1 _) =>
      if bool_decide (c1 = "#"%char ∨ c1 = "B"%char)
      then if bool_decide (c1 = "B"%char)
           then String c0 "b"
           else String c0 "#"
      else String c0 EmptyString
  | String c0 EmptyString => String c0 EmptyString
  | EmptyString => EmptyString
  end.

Definition normalize_note (note : string) (use_flats : bool) : result string :=
  let n := Str.replace " " "" (Str.upper (Str.strip note)) in
  if bool_decide (n = "") then Raise (ValueError "Empty note") else
  let n := letter_and_accidental n in
  let n := match FLAT_TO_SHARP !! n with Some v => v | None => n end in
  let n := match ENHARMONIC !! n with Some v => v | None => n end in
  match NOTE_TO_INDEX_SHARPS !! n with
  | None => Raise (ValueError ("Unsupported note: " +:+ note))
  | Some _ =>
      if use_flats
      then match SHARP_TO_FLAT !! n with
           | Some v => Ok v
           | None => Ok n
           end
      else Ok n
  end.

(** ** Splitting a text into tokens *)

(** [[x for x in text.replace(",", " ").split() if x.strip()]], the first
    line of both text resolvers. *)
Definition raw_tokens (text : string) : list string :=
  filter (λ x, Str.strip x ≠ "") (Str.split (Str.replace "," " " text)).

(** ** [parse_notes_text] *)

(** The list comprehension [[f(x) for x in xs]] for an [f] that may raise:
    elements are evaluated from the left, the first exception ends it. *)
Fixpoint comprehension {A B : Type} (f : A → result B) (xs : list A) : result (list B) :=
  match xs with
  | [] => Ok []
  | x :: xs' => y ← f x; ys ← comprehension f xs'; Ok (y :: ys)
  end.

Definition parse_notes_text (text : string) (use_flats : bool) : result (list string) :=
  let raw := raw_tokens text in
  comprehension (λ x, normalize_note x use_flats) raw.

(** ** [unique_preserve_order] *)

(** The loop of lines 53 to 57 over the remaining [items], with the set
    [seen] and the list [out] as its state. *)
Fixpoint unique_loop (items : list string) (seen : gset string) (out : list string) : list string :=
  match items with
  | [] => out
  | x :: rest =>
      if decide (x ∈ seen)
      then unique_loop rest seen out
      else unique_loop rest (seen ∪ {[x]}) (out ++ [x])
  end.

Definition unique_preserve_order (items : list string) : list string :=
  unique_loop items ∅ [].

(** ** [parse_degree_token] *)

(** UTF-8 encodings of the music flat sign U+266D and sharp sign U+266F. *)
Definition flat_sign : string :=
  String "226"%char (String "153"%char (String "173"%char EmptyString)).
Definition sharp_sign : string :=
  String "226"%char (String "153"%char (String "175"%char EmptyString)).

Definition is_acc (ch : ascii) : bool :=
  bool_decide (ch ∈ ["b"%char; "#"%char; "x"%char]).

(** One round of the loop of lines 103 to 109. *)
Definition shift_step (shift : Z) (ch : ascii) : Z :=
  if bool_decide (ch = "b"%char) then shift - 1
  else if bool_decide (ch = "#"%char) then shift + 1
  else if bool_decide (ch = "x"%char) then shift + 2
  else shift.

Definition invalid_degree_token (token : string) : exn :=
  ValueError ("Invalid degree token: " +:+ token).

Definition parse_degree_token (token : string) : result (Z * Z) :=
  let t := Str.strip token in
  if bool_decide (t = "") then Raise (ValueError "Empty degree token") else
  let t := Str.replace sharp_sign "#" (Str.replace flat_sign "b" t) in
  if bool_decide (Str.lower t ∈ ["r"; "root"]) then Ok (1, 0) else
  let '(prefix, rest) := Str.span is_acc t in
  match rest with
  | EmptyString => Raise (invalid_degree_token token)
  | String c _ =>
      if negb (Str.isdigit c) then Raise (invalid_degree_token token) else
      let '(num_str, rest) := Str.span Str.isdigit rest in
      let '(suffix, rest) := Str.span is_acc rest in
      if bool_decide (rest ≠ "") then Raise (invalid_degree_token token) else
      let degree := Str.int num_str in
      let acc := prefix +:+ suffix in
      let shift := Str.fold shift_step 0 acc in
      Ok (degree, shift)
  end.

(** The text that lines 62 and 66 leave in [t]: the token trimmed, with
    the two musical signs rewritten to [b] and [#]. *)
Definition degree_text (token : string) : string :=
  Str.replace sharp_sign "#" (Str.replace flat_sign "b" (Str.strip token)).

(** ** [degrees_to_notes_text] *)

(** The body of the loop of lines 126 to 131 for one token: the note name
    that is appended. *)
Definition degree_note (chromatic : list string) (root_idx : Z) (tok : string) : result string :=
  '(deg, shift) ← parse_degree_token tok;
  let deg_base := ((deg - 1) `mod` 7) + 1 in
  base_offset ← dict_get DEGREE_BASE_OFFSETS deg_base;
  let offset := (base_offset + shift) `mod` 12 in
  list_get chromatic ((root_idx + offset) `mod` 12).

(** The loop itself, with the list [notes] as its state. *)
Fixpoint degrees_loop (chromatic : list string) (root_idx : Z)
    (raw : list string) (notes : list string) : result (list string) :=
  match raw with
  | [] => Ok notes
  | tok :: rest =>
      note ← degree_note chromatic root_idx tok;
      degrees_loop chromatic root_idx rest (notes ++ [note])
  end.

Definition degrees_to_notes_text (text root : string) (use_flats : bool) : result (list string) :=
  let raw := raw_tokens text in
  if bool_decide (raw = []) then Raise (ValueError "No degree tokens provided") else
  let chromatic := if use_flats then CHROMATIC_FLATS else CHROMATIC_SHARPS in
  let note_to_index := if use_flats then NOTE_TO_INDEX_FLATS else NOTE_TO_INDEX_SHARPS in
  root_n ← normalize_note root use_flats;
  root_idx ← dict_get note_to_index root_n;
  notes ← degrees_loop chromatic root_idx raw [];
  Ok (unique_preserve_order notes).

(** ** [generate_scale] *)

(** The loop of lines 146 to 148, with [idx] and [notes] as its state. *)
Fixpoint scale_loop (steps : list Z) (idx : Z) (notes : list string) : result (list string) :=
  match steps with
  | [] => Ok notes
  | step :: rest =>
      let idx := (idx + step) `mod` 12 in
      note ← list_get CHROMATIC_SHARPS idx;
      scale_loop rest idx (notes ++ [note])
  end.

(** [len(steps) in (5, 6, 7, 8, 12)] *)
Definition drops_last (steps : list Z) : bool :=
  bool_decide (Z.of_nat (length steps) ∈ [5; 6; 7; 8; 12]).

Definition generate_scale (root mode : string) (scale_modes : gmap string (list Z))
    (use_flats : bool) : result (list string) :=
  match scale_modes !! mode with
  | None => Raise (ValueError ("Unsupported mode: " +:+ mode))
  | Some steps =>
      root_n ← normalize_note root false;
      root_idx ← dict_get NOTE_TO_INDEX_SHARPS root_n;
      notes ← scale_loop steps root_idx [root_n];
      let notes := if drops_last steps then removelast notes else notes in
      let notes := if use_flats
                   then (λ n, dict_get_default SHARP_TO_FLAT n n) <$> notes
                   else notes in
      Ok (unique_preserve_order notes)
  end.

(** ** The scale table of [scales.py] *)

Definition SCALE_MODES : gmap string (list Z) :=
  list_to_map [
    ("ionian_major", [2; 2; 1; 2; 2; 2; 1]);
    ("dorian", [2; 1; 2; 2; 2; 1; 2]);
    ("phrygian", [1; 2; 2; 2; 1; 2; 2]);
    ("lydian", [2; 2; 2; 1; 2; 2; 1]);
    ("mixolydian", [2; 2; 1; 2; 2; 1; 2]);
    ("aeolian_natural_minor", [2; 1; 2; 2; 1; 2; 2]);
    ("locrian", [1; 2; 2; 1; 2; 2; 2]);
    ("harmonic_minor", [2; 1; 2; 2; 1; 3; 1]);
    ("melodic_minor", [2; 1; 2; 2; 2; 2; 1]);
    ("harmonic_minor_mode2_locrian_nat6", [1; 2; 1; 2; 2; 1; 3]);
    ("harmonic_minor_mode3_ionian_aug", [2; 1; 2; 2; 1; 3; 1]);
    ("harmonic_minor_mode4_dorian_4", [2; 2; 1; 2; 1; 3; 1]);
    ("harmonic_minor_mode5_phrygian_dom", [1; 3; 1; 2; 1; 2; 2]);
    ("harmonic_minor_mode6_lydian_2", [3; 1; 2; 1; 2; 2; 1]);
    ("harmonic_minor_mode7_superlocrian_bb7", [1; 2; 1; 2; 2; 1; 3]);
    ("dorian_b2", [1; 2; 2; 2; 2; 1; 2]);
    ("lydian_aug", [2; 2; 2; 2; 1; 2; 1]);
    ("lydian_dom", [2; 2; 2; 1; 2; 1; 2]);
    ("mixolydian_b6", [2; 2; 1; 2; 1; 2; 2]);
    ("locrian_nat2", [2; 1; 2; 1; 2; 2; 2]);
    ("altered_superlocrian", [1; 2; 1; 2; 2; 2; 2]);
    ("pentatonic_major", [2; 2; 3; 2; 3]);
    ("pentatonic_minor", [3; 2; 2; 3; 2]);
    ("egyptian_pentatonic", [2; 3; 2; 3; 2]);
    ("hirajoshi", [2; 1; 4; 1; 4]);
    ("iwato", [1; 4; 1; 4; 2]);
    ("kumoi", [2; 1; 4; 2; 3]);
    ("insen", [1; 4; 2; 3; 2]);
    ("yo", [2; 3; 2; 2; 3]);
    ("blues", [3; 2; 1; 1; 3; 2]);
    ("whole_tone", [2; 2; 2; 2; 2; 2]);
    ("augmented_hexatonic", [3; 1; 3; 1; 3; 1]);
    ("prometheus", [2; 2; 2; 3; 1; 2]);
    ("tritone_scale", [1; 2; 1; 2; 1; 2; 3]);
    ("diminished_hw", [1; 2; 1; 2; 1; 2; 1; 2]);
    ("diminished_wh", [2; 1; 2; 1; 2; 1; 2; 1]);
    ("hungarian_minor", [2; 1; 3; 1; 1; 3; 1]);
    ("double_harmonic_major", [1; 3; 1; 2; 1; 3; 1]);
    ("neapolitan_minor", [1; 2; 2; 2; 1; 3; 1]);
    ("neapolitan_major", [1; 2; 2; 2; 2; 2; 1]);
    ("enigmatic", [1; 3; 2; 2; 2; 1; 1]);
    ("persian", [1; 3; 1; 1; 2; 3; 1]);
    ("romanian_minor", [2; 1; 3; 1; 2; 1; 2]);
    ("ukrainian_dorian", [2; 1; 3; 1; 2; 1; 2]);
    ("spanish_gypsy", [1; 3; 1; 2; 1; 2; 2]);
    ("chromatic", [1; 1; 1; 1; 1; 1; 1; 1; 1; 1; 1; 1])
  ].

(** ** What the specification says, in its own words

    These definitions follow the specification text; the theorems below
    compare them with the functions translated from the source. *)

Module Spec.

(** Deduplication that keeps the first occurrence of every element, in
    the order of those first occurrences. *)
Fixpoint first_occurrences (l : list string) : list string :=
  match l with
  | [] => []
  | x :: r => x :: filter (λ y, y ≠ x) (first_occurrences r)
  end.

(** The major-scale reference offsets {1:0, 2:2, 3:4, 4:5, 5:7, 6:9, 7:11}. *)
Definition major_offset (d : Z) : Z :=
  match d with
  | 1 => 0 | 2 => 2 | 3 => 4 | 4 => 5 | 5 => 7 | 6 => 9 | 7 => 11
  | _ => 0
  end.

(** Degree numbers wrap modulo 7 onto 1..7. *)
Definition wrapped_major_offset (degree : Z) : Z :=
  major_offset (((degree - 1) `mod` 7) + 1).

(** The display spelling of pitch-class index [i]. *)
Definition spelling (prefer_flats : bool) (i : Z) : string :=
  nth (Z.to_nat i) (if prefer_flats then CHROMATIC_FLATS else CHROMATIC_SHARPS) "".

(** (rootIndex + wrappedMajorOffset(degree) + semitoneShift) mod 12 *)
Definition degree_pitch (root_idx : Z) (d : Z * Z) : Z :=
  (root_idx + wrapped_major_offset d.1 + d.2) `mod` 12.

(** The tones of a step pattern: tone [i] lies the sum of the first [i]
    steps above the root, for [i] from 0 to the number of steps. *)
Definition tone (root_idx : Z) (steps : list Z) (i : nat) : Z :=
  (root_idx + foldr Z.add 0 (take i steps)) `mod` 12.

Definition tones (root_idx : Z) (steps : list Z) : list Z :=
  tone root_idx steps <$> seq 0 (S (length steps)).

(** The step counts whose last tone is dropped. *)
Definition closing_count (n : nat) : Prop :=
  n = 5%nat ∨ n = 6%nat ∨ n = 7%nat ∨ n = 8%nat ∨ n = 12%nat.

(** The flat spelling of a sharp name; other names are unchanged. *)
Definition respell (prefer_flats : bool) (n : string) : string :=
  if prefer_flats
  then match n with
       | "C#" => "Db" | "D#" => "Eb" | "F#" => "Gb" | "G#" => "Ab" | "A#" => "Bb"
       | _ => n
       end
  else n.



Inductive chars (P : ascii → Prop) : string → Prop :=
  | chars_nil : chars P EmptyString
  | chars_cons c s : P c → chars P s → chars P (String c s).





(** Only white space and commas. *)
Definition blank (c : ascii) : Prop :=
  Str.is_space c = true ∨ c = ","%char.

(** A token as a caller hands it over in a list: not empty, and without
    white space or commas. *)
Definition token_char (c : ascii) : Prop :=
  Str.is_space c = false ∧ c ≠ ","%char.

Definition plain_token (t : string) : Prop :=
  t ≠ "" ∧ chars token_char t.

(** A text that spells a list of tokens, a space after each. *)
Fixpoint text_of_tokens (toks : list string) : string :=
  match toks with
  | [] => ""
  | t :: r => t +:+ " " +:+ text_of_tokens r
  end.

End Spec.

(** ** The rest of [fretboard_core.py] *)

(** [get_inlay_frets] *)
Definition INLAY_BASE : list Z := [3; 5; 7; 9; 12; 15; 17; 19; 21; 24].

Definition get_inlay_frets (num_frets : Z) : list Z :=
  filter (λ f, f ≤ num_frets) INLAY_BASE.

Definition DEFAULT_TUNING : list string := ["E"; "A"; "D"; "G"; "B"; "E"].

(** [FretboardRenderer]: the two fields that decide what is drawn where;
    the others are the scale length, a float, and colours and font size,
    which only style the drawing. *)
Record FretboardRenderer : Type := {
  num_frets : Z;
  tuning : list string;
}.

(** [FretboardRenderer.__init__], lines 183 and 184: the fret count is
    clamped to 1..24, and a tuning that is [None] or empty is replaced by
    the default one. *)
Definition new_renderer (num_frets : Z) (tuning : option (list string)) : FretboardRenderer :=
  {| num_frets := Z.max 1 (Z.min num_frets 24);
     tuning := match tuning with
               | Some (x :: t) => x :: t
               | _ => DEFAULT_TUNING
               end |}.

(** A note marker.  The source appends the coordinates [x = mids[f]] and
    [y = ys[si]] and the name to three parallel lists; the model keeps the
    string [si] and the fret [f] the coordinates are read at. *)
Definition marker : Type := nat * Z * string.

(** The loop of lines 316 to 323 over the frets of one string, with the
    root markers and the other markers as its state. *)
Fixpoint fret_loop (scale_set : gset string) (root : string) (si : nat)
    (cells : list (Z * string)) (st : list marker * list marker) : list marker * list marker :=
  match cells with
  | [] => st
  | (f, name) :: rest =>
      if decide (name ∉ scale_set) then fret_loop scale_set root si rest st
      else if decide (name = root)
      then fret_loop scale_set root si rest (st.1 ++ [(si, f, name)], st.2)
      else fret_loop scale_set root si rest (st.1, st.2 ++ [(si, f, name)])
  end.

(** The loop of lines 310 to 323 over the strings. *)
Fixpoint string_loop (chromatic : list string) (note_to_index : gmap string Z)
    (scale_set : gset string) (root : string) (frets : list Z)
    (strings : list (nat * string)) (st : list marker * list marker)
    : result (list marker * list marker) :=
  match strings with
  | [] => Ok st
  | (si, open_note) :: rest =>
      open_idx ← dict_get note_to_index open_note;
      names ← comprehension (λ f, list_get chromatic ((open_idx + f) `mod` 12)) frets;
      string_loop chromatic note_to_index scale_set root frets rest
        (fret_loop scale_set root si (zip frets names) st)
  end.

(** Lines 306 to 323 of [draw], which are lines 300 to 318 of
    [plot_fretboard]: the root markers and the other markers of a tuning
    that is already normalised. *)
Definition note_markers (tuning : list string) (num_frets : Z)
    (scale_notes : list string) (root : string) (use_flats : bool)
    : result (list marker * list marker) :=
  let scale_set : gset string := list_to_set scale_notes in
  let chromatic := if use_flats then CHROMATIC_FLATS else CHROMATIC_SHARPS in
  let note_to_index := if use_flats then NOTE_TO_INDEX_FLATS else NOTE_TO_INDEX_SHARPS in
  let frets := seqZ 0 (num_frets + 1) in
  string_loop chromatic note_to_index scale_set root frets
    (imap (λ si open_note, (si, open_note)) tuning) ([], []).



(** ** [fretboard_plot.py]

    Its [normalize_note], [parse_notes], [unique_preserve_order],
    [parse_degree_token], [degrees_to_notes] and [get_inlay_frets] are the
    same text as the functions of [fretboard_core.py] above; its scale
    table and [generate_scale] differ. *)

Module Plot.

Definition SCALE_MODES : gmap string (list Z) :=
  list_to_map [
    ("major", [2; 2; 1; 2; 2; 2; 1]);
    ("minor", [2; 1; 2; 2; 1; 2; 2]);
    ("pentatonic_major", [2; 2; 3; 2; 3]);
    ("pentatonic_minor", [3; 2; 2; 3; 2]);
    ("blues", [3; 2; 1; 1; 3; 2])
  ].

(** The message of line 79, with [list(SCALE_MODES.keys())] printed. *)
Definition unsupported_mode (mode : string) : exn :=
  ValueError ("Unsupported mode: " +:+ mode +:+
    ". Available: ['major', 'minor', 'pentatonic_major', 'pentatonic_minor', 'blues']").

(** [generate_scale] of [fretboard_plot.py], lines 77 to 96: the table is
    the module's own, the last tone is dropped for the modes whose name
    starts with pentatonic, and nothing is deduplicated. *)
Definition generate_scale (root mode : string) (use_flats : bool) : result (list string) :=
  match SCALE_MODES !! mode with
  | None => Raise (unsupported_mode mode)
  | Some intervals =>
      root_n ← normalize_note root false;
      root_idx ← dict_get NOTE_TO_INDEX_SHARPS root_n;
      notes ← scale_loop intervals root_idx [root_n];
      let notes := if Str.startswith "pentatonic" mode then removelast notes else notes in
      let notes := if use_flats
                   then (λ n, dict_get_default SHARP_TO_FLAT n n) <$> notes
                   else notes in
      Ok notes
  end.

(** The arguments of the command line that decide what is plotted. *)
Record args : Type := {
  scale_input : string;
  degrees : bool;
  root : string;
  mode : string;
  frets : Z;
  tuning : string;
  use_flats : bool;
}.

(** What [main] hands to [plot_fretboard], or the usage error it ends with. *)
Inductive resolved : Type :=
  | UsageError (msg : string)
  | PlotArgs (scale : list string) (root : string) (tuning : list string) (num_frets : Z).

(** [main], lines 424 to 447. *)
Definition main (a : args) : result resolved :=
  let has_scale_input := negb (bool_decide (Str.strip (scale_input a) = "")) in
  let has_mode := negb (bool_decide (Str.strip (mode a) = "")) in
  if negb has_scale_input && (bool_decide (root a = "") || negb has_mode)
  then Ok (UsageError "Provide either scale_input, or both --root and --mode.")
  else if degrees a && bool_decide (Str.strip (root a) = "")
  then Ok (UsageError "--degrees requires --root.")
  else
    scale ← (if has_scale_input
             then if degrees a
                  then degrees_to_notes_text (scale_input a) (root a) (use_flats a)
                  else parse_notes_text (scale_input a) (use_flats a)
             else generate_scale (root a) (mode a) (use_flats a));
    tuning ← comprehension (λ x, normalize_note x (use_flats a)) (Str.split (tuning a));
    let num_frets := Z.max 1 (Z.min (frets a) 24) in
    root ← (if negb (bool_decide (Str.strip (root a) = ""))
            then normalize_note (root a) (use_flats a)
            else list_get scale 0);
    Ok (PlotArgs scale root tuning num_frets).

End Plot.

(** ** [fretboard_gui.py] *)

Module Gui.

(** The widgets [_compute_notes] reads. *)
Record widgets : Type := {
  mode_combo : string;
  use_flats_cb : bool;
  root_combo : string;
  notes_edit : string;
  deg_edit : string;
  scale_combo : string;
  scale_display_to_key : gmap string string;
}.

(** [_get_root] *)
Definition _get_root (w : widgets) : string :=
  let root := Str.strip (root_combo w) in
  if bool_decide (root = "") then "C" else root.

(** [_compute_notes], with the scale table it imports as a parameter. *)
Definition _compute_notes (w : widgets) (scale_modes : gmap string (list Z))
    : result (list string * string) :=
  let mode := mode_combo w in
  let use_flats := use_flats_cb w in
  let root := _get_root w in
  if bool_decide (mode = "Notes") then
    let text := Str.strip (notes_edit w) in
    notes ← (if bool_decide (text = "") then Ok [] else parse_notes_text text use_flats);
    root_n ← normalize_note root use_flats;
    Ok (notes, root_n)
  else if bool_decide (mode = "Degrees") then
    let text := Str.strip (deg_edit w) in
    if bool_decide (text = "")
    then root_n ← normalize_note root use_flats; Ok ([], root_n)
    else
      notes ← degrees_to_notes_text text root use_flats;
      root_n ← normalize_note root use_flats;
      Ok (notes, root_n)
  else
    root_n ← normalize_note root use_flats;
    scale_key ← dict_get (scale_display_to_key w) (scale_combo w);
    notes ← generate_scale root_n scale_key scale_modes use_flats;
    Ok (notes, root_n).

End Gui.

(** ** Parts of [normalize_note], named for the statements below *)

Module Normal.

(** Line 21: the text the function works on. *)
Definition cleaned (note : string) : string :=
  Str.replace " " "" (Str.upper (Str.strip note)).

(** Lines 33 to 42, on the letter and accidental [n] of line 31. *)
Definition spell (n : string) (use_flats : bool) (note : string) : result string :=
  let n := match FLAT_TO_SHARP !! n with Some v => v | None => n end in
  let n := match ENHARMONIC !! n with Some v => v | None => n end in
  match NOTE_TO_INDEX_SHARPS !! n with
  | None => Raise (ValueError ("Unsupported note: " +:+ note))
  | Some _ =>
      if use_flats
      then match SHARP_TO_FLAT !! n with
           | Some v => Ok v
           | None => Ok n
           end
      else Ok n
  end.


End Normal.

(** ** The fretboard as a list of cells, for the statements below *)

Module Markers.

(** The name sounded at a fret of a string whose open note has index
    [open_idx]. *)
Definition sounded (use_flats : bool) (open_idx fret : Z) : string :=
  Spec.spelling use_flats ((open_idx + fret) `mod` 12).

(** The cells of one string, from the open string to the last fret. *)
Definition cells (use_flats : bool) (num_frets : Z) (si : nat) (open_idx : Z) : list marker :=
  (λ fret, (si, fret, sounded use_flats open_idx fret)) <$> seqZ 0 (num_frets + 1).

(** The cells of all strings, string by string. *)
Definition board (use_flats : bool) (num_frets : Z) (strings : list (nat * Z)) : list marker :=
  strings ≫= λ p, cells use_flats num_frets p.1 p.2.

(** The strings of a tuning given by the indices of its open notes. *)
Definition strings (idxs : list Z) : list (nat * Z) := imap (λ si idx, (si, idx)) idxs.

End Markers.

Example strip_ex : Str.strip "  a b  " = "a b".
Proof. reflexivity. Qed.

Example split_ex : Str.split (Str.replace "," " " " C,E  G,,C ") = ["C"; "E"; "G"; "C"].
Proof. reflexivity. Qed.

Example upper_ex : Str.upper "f# b" = "F# B".
Proof. reflexivity. Qed.

Example int_ex : Str.int "0123" = 123.
Proof. reflexivity. Qed.

Example normalize_note_bb : normalize_note "bb" true = Ok "Bb".
Proof. vm_compute. reflexivity. Qed.
Example normalize_note_c_double_sharp : normalize_note "C##" false = Ok "C#".
Proof. vm_compute. reflexivity. Qed.
Example normalize_note_c_double_flat : normalize_note "Cbb" false = Ok "B".
Proof. vm_compute. reflexivity. Qed.
Example normalize_note_h : normalize_note "H" false = Raise (ValueError "Unsupported note: H").
Proof. vm_compute. reflexivity. Qed.
Example index_of_b_flat : NOTE_TO_INDEX_FLATS !! "Bb" = Some 10.
Proof. vm_compute. reflexivity. Qed.

Example parse_degree_b3 : parse_degree_token "b3" = Ok (3, -1).
Proof. vm_compute. reflexivity. Qed.
Example parse_degree_3b_sharp : parse_degree_token "3b#" = Ok (3, 0).
Proof. vm_compute. reflexivity. Qed.
Example parse_degree_root : parse_degree_token "Root" = Ok (1, 0).
Proof. vm_compute. reflexivity. Qed.
Example parse_degree_flat_sign : parse_degree_token (flat_sign +:+ "3") = Ok (3, -1).
Proof. vm_compute. reflexivity. Qed.
Example parse_degree_3a : parse_degree_token "3a" = Raise (invalid_degree_token "3a").
Proof. vm_compute. reflexivity. Qed.
Example degrees_1_b3_5 : degrees_to_notes_text "1 b3 5" "C" false = Ok ["C"; "D#"; "G"].
Proof. vm_compute. reflexivity. Qed.
Example degrees_0 : degrees_to_notes_text "0" "C" false = Ok ["B"].
Proof. vm_compute. reflexivity. Qed.
Example degrees_blank : degrees_to_notes_text " , " "C" false = Raise (ValueError "No degree tokens provided").
Proof. vm_compute. reflexivity. Qed.
Example notes_c_e_g_c : parse_notes_text "C E G C" false = Ok ["C"; "E"; "G"; "C"].
Proof. vm_compute. reflexivity. Qed.
Example scale_c_pentatonic_major : generate_scale "C" "pentatonic_major" SCALE_MODES false = Ok ["C"; "D"; "E"; "G"; "A"].
Proof. vm_compute. reflexivity. Qed.

(** * Sequencing *)

Lemma bind_Ok {A B} (a : A) (k : A → result B) : (Ok a ≫= k) = k a.
Proof. done. Qed.

Lemma bind_Raise {A B} (e : exn) (k : A → result B) : (Raise e ≫= k) = Raise e.
Proof. done. Qed.

(** * Deduplication *)

Section unique.
Implicit Types (items out : list string) (seen : gset string).

Lemma filter_all (P : string → Prop) `{∀ x, Decision (P x)} (l : list string) :
  (∀ x, x ∈ l → P x) → filter P l = l.
Proof.
  induction l as [|y r IH]; intros Hall; [done|].
  rewrite filter_cons_True by (apply Hall; left).
  f_equal. apply IH. intros x Hx. apply Hall. by right.
Qed.

Lemma filter_not_in_snoc out x (l : list string) :
  filter (λ y, y ∉ out ++ [x]) l = filter (λ y, y ∉ out) (filter (λ y, y ≠ x) l).
Proof.
  rewrite list_filter_filter. apply list_filter_iff. intros y.
  rewrite not_elem_of_app, list_elem_of_singleton. tauto.
Qed.

Lemma filter_not_in_absorb out x (l : list string) :
  x ∈ out →
  filter (λ y, y ∉ out) (filter (λ y, y ≠ x) l) = filter (λ y, y ∉ out) l.
Proof.
  intros Hx. rewrite list_filter_filter. apply list_filter_iff. intros y.
  split; [tauto|]. intros Hy. split; [done|]. intros ->. done.
Qed.

(** The loop invariant: [seen] holds exactly the elements of [out]. *)
Lemma unique_loop_spec items : ∀ seen out,
  (∀ x, x ∈ seen ↔ x ∈ out) →
  unique_loop items seen out
  = out ++ filter (λ y, y ∉ out) (Spec.first_occurrences items).
Proof.
  induction items as [|x rest IH]; intros seen out Hseen; simpl.
  - by rewrite app_nil_r.
  - destruct (decide (x ∈ seen)) as [Hin|Hnin].
    + rewrite (IH seen out Hseen).
      rewrite filter_cons_False by (apply Hseen in Hin; tauto).
      rewrite filter_not_in_absorb; [done|by apply Hseen].
    + rewrite (IH (seen ∪ {[x]}) (out ++ [x])).
      * rewrite filter_cons_True by (by rewrite <-Hseen).
        rewrite <-app_assoc. simpl. by rewrite filter_not_in_snoc.
      * intros y. rewrite elem_of_union, elem_of_singleton, elem_of_app,
          list_elem_of_singleton, Hseen. done.
Qed.

Lemma unique_preserve_order_spec items :
  unique_preserve_order items = Spec.first_occurrences items.
Proof.
  unfold unique_preserve_order. rewrite (unique_loop_spec items ∅ []); simpl.
  - apply filter_all. intros y _. apply not_elem_of_nil.
  - intros x. split; [set_solver|]. by intros ?%not_elem_of_nil.
Qed.

Lemma elem_of_first_occurrences (l : list string) x :
  x ∈ Spec.first_occurrences l ↔ x ∈ l.
Proof.
  induction l as [|y r IH]; simpl; [done|].
  rewrite !elem_of_cons, list_elem_of_filter, IH.
  destruct (decide (x = y)); tauto.
Qed.

Lemma NoDup_first_occurrences (l : list string) :
  NoDup (Spec.first_occurrences l).
Proof.
  induction l as [|y r IH]; simpl; [constructor|].
  constructor.
  - rewrite list_elem_of_filter. tauto.
  - by apply NoDup_filter.
Qed.

Lemma first_occurrences_sublist (l : list string) :
  Spec.first_occurrences l `sublist_of` l.
Proof.
  induction l as [|y r IH]; simpl; [done|].
  constructor. etrans; [apply sublist_filter|done].
Qed.

Lemma first_occurrences_NoDup_id (l : list string) :
  NoDup l → Spec.first_occurrences l = l.
Proof.
  induction 1 as [|y r Hy _ IH]; simpl; [done|].
  rewrite IH. f_equal. apply filter_all.
  intros z Hz ->. done.
Qed.
End unique.

(** * Facts about the string methods *)

Section str_facts.
Implicit Types (s t : string) (c : ascii) (p : ascii → bool).

Lemma str_app_nil_l s : "" +:+ s = s.
Proof. done. Qed.

Lemma str_app_cons c s t : String c s +:+ t = String c (s +:+ t).
Proof. done. Qed.

Lemma str_app_nil_r s : s +:+ "" = s.
Proof. induction s as [|c s IH]; [done|]. by rewrite str_app_cons, IH. Qed.

Lemma str_app_assoc s t u : (s +:+ t) +:+ u = s +:+ (t +:+ u).
Proof. induction s as [|c s IH]; [done|]. by rewrite !str_app_cons, IH. Qed.


Lemma str_length_app s t :
  String.length (s +:+ t) = (String.length s + String.length t)%nat.
Proof. induction s as [|c s IH]; [done|]. rewrite str_app_cons. simpl. by rewrite IH. Qed.

Lemma lstrip_head c s : Str.is_space c = false → Str.lstrip (String c s) = String c s.
Proof. intros Hc. simpl. by rewrite Hc. Qed.

Lemma rstrip_head c s :
  Str.is_space c = false → Str.rstrip (String c s) = String c (Str.rstrip s).
Proof. intros Hc. simpl. rewrite Hc. by destruct (Str.rstrip s). Qed.

Lemma rstrip_no_space s :
  Str.all (λ c, negb (Str.is_space c)) s = true → Str.rstrip s = s.
Proof.
  induction s as [|c s IH]; [done|]. simpl.
  intros [Hc Hs]%andb_true_iff. apply negb_true_iff in Hc.
  rewrite (IH Hs), Hc. by destruct s.
Qed.

Lemma strip_no_space s :
  Str.all (λ c, negb (Str.is_space c)) s = true → Str.strip s = s.
Proof.
  intros Hs. unfold Str.strip.
  destruct s as [|c s]; [done|].
  pose proof Hs as [Hc _]%andb_true_iff. apply negb_true_iff in Hc.
  rewrite lstrip_head by done. by apply rstrip_no_space.
Qed.

Lemma lstrip_all_space s : Str.all Str.is_space s = true → Str.lstrip s = "".
Proof.
  induction s as [|c s IH]; [done|]. simpl.
  intros [Hc Hs]%andb_true_iff. rewrite Hc. auto.
Qed.


Lemma all_app p s t : Str.all p (s +:+ t) = Str.all p s && Str.all p t.
Proof.
  induction s as [|c s IH]; [done|]. rewrite str_app_cons. simpl.
  by rewrite IH, andb_assoc.
Qed.

(** A text without the first byte of [old] has no occurrence of it. *)
Lemma replace_absent a old new s :
  Str.all (λ c, negb (bool_decide (c = a))) s = true →
  Str.replace (String a old) new s = s.
Proof.
  unfold Str.replace. induction s as [|c s IH]; [done|].
  simpl. intros [Hc Hs]%andb_true_iff.
  apply negb_true_iff, bool_decide_eq_false in Hc.
  destruct (decide (a = c)) as [->|_]; [done|]. by rewrite IH.
Qed.

(** Replacing one character by another one is a map. *)
Lemma replace_char a b s :
  Str.replace (String a "") (String b "") s
  = Str.map (λ c, if decide (a = c) then b else c) s.
Proof.
  unfold Str.replace. induction s as [|c s IH]; [done|].
  simpl. destruct (decide (a = c)) as [->|_]; simpl.
  - by rewrite str_app_cons, str_app_nil_l, IH.
  - by rewrite IH.
Qed.

Lemma split_go_all_space s :
  Str.all Str.is_space s = true → Str.split_go "" s = [].
Proof.
  induction s as [|c s IH]; [done|]. simpl.
  intros [Hc Hs]%andb_true_iff. rewrite Hc. auto.
Qed.




Lemma fold_app {A} (f : A → ascii → A) s : ∀ z t,
  Str.fold f z (s +:+ t) = Str.fold f (Str.fold f z s) t.
Proof.
  induction s as [|c s IH]; intros z t; [done|].
  rewrite str_app_cons. simpl. apply IH.
Qed.

Lemma map_all_id (f : ascii → ascii) p s :
  (∀ c, p c = true → f c = c) → Str.all p s = true → Str.map f s = s.
Proof.
  intros Hf. induction s as [|c s IH]; [done|]. simpl.
  intros [Hc Hs]%andb_true_iff. by rewrite Hf, IH.
Qed.
End str_facts.

(** * Character classes *)

Section char_facts.

Ltac by_cases c := destruct c as [[] [] [] [] [] [] [] []].








Lemma upper_char_space c : Str.upper_char c = " "%char → c = " "%char.
Proof. by_cases c; vm_compute; done. Qed.













End char_facts.

(** * The degree parser *)

Section degree_parser.
Implicit Types (token t pre digs suf : string) (d sh : Z).







(** Every rejection is a [ValueError]. *)
Lemma parse_degree_token_raises token e :
  parse_degree_token token = Raise e → ∃ msg, e = ValueError msg.
Proof.
  unfold parse_degree_token. fold (degree_text token).
  repeat case_bool_decide; try done; try (intros [= <-]; eauto).
  destruct (Str.span is_acc (degree_text token)) as [prefix rest].
  destruct rest as [|c rest']; [intros [= <-]; unfold invalid_degree_token; eauto|].
  destruct (Str.isdigit c); cbn [negb]; [|intros [= <-]; unfold invalid_degree_token; eauto].
  destruct (Str.span Str.isdigit (String c rest')) as [num_str rest2].
  destruct (Str.span is_acc rest2) as [suffix rest3].
  case_bool_decide; [intros [= <-]; unfold invalid_degree_token; eauto|done].
Qed.

End degree_parser.

Section degree_tokens.
Implicit Types (token pre digs suf : string).






End degree_tokens.

(** * The note normaliser *)

Section normaliser.
Implicit Types (note n m : string) (use_flats : bool).

Lemma note_index_sharps n i :
  NOTE_TO_INDEX_SHARPS !! n = Some i →
  0 ≤ i < 12 ∧ CHROMATIC_SHARPS !! Z.to_nat i = Some n.
Proof.
  unfold NOTE_TO_INDEX_SHARPS, enumerate_index. simpl.
  repeat (rewrite lookup_insert; case_decide as Hk;
          [intros [= <-]; simpl in Hk; subst n; split; [lia|done]|clear Hk]).
  by rewrite lookup_empty.
Qed.

Lemma note_index_flats n i :
  NOTE_TO_INDEX_FLATS !! n = Some i →
  0 ≤ i < 12 ∧ CHROMATIC_FLATS !! Z.to_nat i = Some n.
Proof.
  unfold NOTE_TO_INDEX_FLATS, enumerate_index. simpl.
  repeat (rewrite lookup_insert; case_decide as Hk;
          [intros [= <-]; simpl in Hk; subst n; split; [lia|done]|clear Hk]).
  by rewrite lookup_empty.
Qed.

Lemma sharp_names n :
  n ∈ CHROMATIC_SHARPS → is_Some (NOTE_TO_INDEX_SHARPS !! n).
Proof.
  unfold CHROMATIC_SHARPS. rewrite !elem_of_cons, elem_of_nil.
  intros H. repeat (destruct H as [->|H]; [vm_compute; eauto|]). done.
Qed.


Lemma normalize_note_range note use_flats m :
  normalize_note note use_flats = Ok m →
  m ∈ (if use_flats then CHROMATIC_FLATS else CHROMATIC_SHARPS).
Proof.
  unfold normalize_note. case_bool_decide; [done|].
  match goal with |- context [NOTE_TO_INDEX_SHARPS !! ?x] => generalize x end.
  intros n. destruct (NOTE_TO_INDEX_SHARPS !! n) as [i|] eqn:Hi; [|done].
  apply note_index_sharps in Hi as [_ Hi%list_elem_of_lookup_2].
  revert Hi. unfold CHROMATIC_SHARPS at 1. rewrite !elem_of_cons, elem_of_nil.
  intros Hn.
  repeat (destruct Hn as [->|Hn];
          [destruct use_flats; vm_compute; intros [= <-]; repeat constructor|]).
  done.
Qed.

Lemma normalize_note_fixed use_flats m :
  m ∈ (if use_flats then CHROMATIC_FLATS else CHROMATIC_SHARPS) →
  normalize_note m use_flats = Ok m.
Proof.
  destruct use_flats; unfold CHROMATIC_FLATS, CHROMATIC_SHARPS;
    rewrite !elem_of_cons, elem_of_nil; intros Hm;
    repeat (destruct Hm as [->|Hm]; [by vm_compute|]); done.
Qed.

Lemma normalize_note_index note use_flats m :
  normalize_note note use_flats = Ok m →
  ∃ i, (if use_flats then NOTE_TO_INDEX_FLATS else NOTE_TO_INDEX_SHARPS) !! m = Some i.
Proof.
  intros Hm%normalize_note_range. revert Hm.
  destruct use_flats; unfold CHROMATIC_FLATS, CHROMATIC_SHARPS;
    rewrite !elem_of_cons, elem_of_nil; intros Hm;
    repeat (destruct Hm as [->|Hm]; [vm_compute; eauto|]); done.
Qed.

Lemma normalize_note_raises note use_flats e :
  normalize_note note use_flats = Raise e → ∃ msg, e = ValueError msg.
Proof.
  unfold normalize_note. case_bool_decide; [intros [= <-]; eauto|].
  match goal with |- context [NOTE_TO_INDEX_SHARPS !! ?x] => generalize x end.
  intros n. destruct (NOTE_TO_INDEX_SHARPS !! n); [|intros [= <-]; eauto].
  destruct use_flats; [destruct (SHARP_TO_FLAT !! n)|]; done.
Qed.

(** What lines 21 to 31 see of a text that starts with two characters
    that are not white space. *)
Lemma cleaned_two c0 c1 rest :
  Str.is_space c0 = false → Str.is_space c1 = false →
  ∃ r, Str.replace " " "" (Str.upper (Str.strip (String c0 (String c1 rest))))
       = String (Str.upper_char c0) (String (Str.upper_char c1) r).
Proof.
  intros H0 H1. unfold Str.strip.
  rewrite lstrip_head, !rstrip_head by done.
  assert (∀ c, Str.is_space c = false → " "%char ≠ Str.upper_char c) as Hup.
  { intros c Hc Heq. symmetry in Heq. apply upper_char_space in Heq. by subst c. }
  unfold Str.upper, Str.replace. cbn [Str.map Str.replace_go Str.startswith].
  rewrite !decide_False by auto. eauto.
Qed.

Lemma cleaned_one c0 :
  Str.is_space c0 = false →
  Str.replace " " "" (Str.upper (Str.strip (String c0 ""))) = String (Str.upper_char c0) "".
Proof.
  intros H0. unfold Str.strip. rewrite lstrip_head, rstrip_head by done.
  unfold Str.upper, Str.replace. cbn.
  rewrite decide_False; [done|].
  intros Heq. symmetry in Heq. apply upper_char_space in Heq. by subst c0.
Qed.

(** Characters after the letter and its accidental do not reach the
    lookup tables. *)
Lemma normalize_note_extra c0 c1 rest use_flats :
  Str.is_space c0 = false → Str.is_space c1 = false →
  value (normalize_note (String c0 (String c1 rest)) use_flats)
  = value (normalize_note (String c0 (String c1 "")) use_flats).
Proof.
  intros H0 H1.
  destruct (cleaned_two c0 c1 rest H0 H1) as [r Hr].
  destruct (cleaned_two c0 c1 "" H0 H1) as [r' Hr'].
  unfold normalize_note. rewrite Hr, Hr'.
  rewrite !bool_decide_eq_false_2 by done.
  cbn [letter_and_accidental].
  match goal with |- context [NOTE_TO_INDEX_SHARPS !! ?x] => generalize x end.
  intros n. destruct (NOTE_TO_INDEX_SHARPS !! n); [|done].
  destruct use_flats; [destruct (SHARP_TO_FLAT !! n)|]; done.
Qed.

Lemma normalize_note_letter c0 c1 rest use_flats :
  Str.is_space c0 = false → Str.is_space c1 = false →
  Str.upper_char c1 ≠ "#"%char → Str.upper_char c1 ≠ "B"%char →
  value (normalize_note (String c0 (String c1 rest)) use_flats)
  = value (normalize_note (String c0 "") use_flats).
Proof.
  intros H0 H1 Hsharp Hflat.
  destruct (cleaned_two c0 c1 rest H0 H1) as [r Hr].
  unfold normalize_note. rewrite Hr, (cleaned_one c0 H0).
  rewrite !bool_decide_eq_false_2 by done.
  cbn [letter_and_accidental].
  rewrite bool_decide_eq_false_2 by tauto.
  match goal with |- context [NOTE_TO_INDEX_SHARPS !! ?x] => generalize x end.
  intros n. destruct (NOTE_TO_INDEX_SHARPS !! n); [|done].
  destruct use_flats; [destruct (SHARP_TO_FLAT !! n)|]; done.
Qed.

(** The entries of the three respelling tables. *)
Lemma enharmonic_pairs a b use_flats :
  SHARP_TO_FLAT !! a = Some b ∨ FLAT_TO_SHARP !! a = Some b ∨ ENHARMONIC !! a = Some b →
  ∃ m i,
    normalize_note a use_flats = Ok m ∧ normalize_note b use_flats = Ok m
    ∧ (if use_flats then NOTE_TO_INDEX_FLATS else NOTE_TO_INDEX_SHARPS) !! m = Some i.
Proof.
  intros Hab.
  assert ((a, b) ∈ [("C#", "Db"); ("D#", "Eb"); ("F#", "Gb"); ("G#", "Ab"); ("A#", "Bb");
                    ("Db", "C#"); ("Eb", "D#"); ("Fb", "E"); ("Gb", "F#");
                    ("Ab", "G#"); ("Bb", "A#"); ("Cb", "B"); ("B#", "C"); ("E#", "F")])
    as Hin.
  { destruct Hab as [H|[H|H]]; apply elem_of_list_to_map_2 in H;
      revert H; rewrite !elem_of_cons, !elem_of_nil; tauto. }
  revert Hin. rewrite !elem_of_cons, elem_of_nil. intros Hin.
  repeat (destruct Hin as [[= -> ->]|Hin];
          [destruct use_flats; vm_compute; eauto|]).
  done.
Qed.
End normaliser.

(** * Tokens and comprehensions *)

Section tokens.

Lemma blank_replaced text :
  Spec.chars Spec.blank text →
  Str.all Str.is_space (Str.replace "," " " text) = true.
Proof.
  rewrite replace_char. induction 1 as [|c s Hc _ IH]; [done|].
  simpl. rewrite IH, andb_true_r.
  destruct (decide (","%char = c)) as [<-|Hne]; [done|].
  destruct Hc as [Hc|Hc]; [done|]. by subst c.
Qed.

Lemma raw_tokens_blank text :
  Spec.chars Spec.blank text → raw_tokens text = [].
Proof.
  intros Hb. unfold raw_tokens, Str.split.
  by rewrite split_go_all_space by (by apply blank_replaced).
Qed.

Lemma split_go_token t : ∀ cur s,
  Spec.chars Spec.token_char t →
  Str.split_go cur (t +:+ s) = Str.split_go (cur +:+ t) s.
Proof.
  induction t as [|c t IH]; intros cur s Ht.
  - by rewrite str_app_nil_l, str_app_nil_r.
  - inversion_clear Ht as [|?? [Hc _] Ht'].
    rewrite str_app_cons. simpl. rewrite Hc, (IH _ _ Ht').
    by rewrite str_app_assoc.
Qed.

Lemma token_no_comma t :
  Spec.chars Spec.token_char t →
  Str.all (λ c, negb (bool_decide (c = ","%char))) t = true.
Proof.
  induction 1 as [|c t [_ Hc] _ IH]; [done|]. simpl.
  by rewrite IH, bool_decide_eq_false_2.
Qed.

Lemma token_no_space t :
  Spec.chars Spec.token_char t →
  Str.all (λ c, negb (Str.is_space c)) t = true.
Proof.
  induction 1 as [|c t [Hc _] _ IH]; [done|]. simpl. by rewrite IH, Hc.
Qed.

Lemma text_of_tokens_no_comma toks :
  Forall Spec.plain_token toks →
  Str.all (λ c, negb (bool_decide (c = ","%char))) (Spec.text_of_tokens toks) = true.
Proof.
  induction 1 as [|t r [_ Ht] _ IH]; [done|]. simpl.
  rewrite !all_app, IH, token_no_comma by done. done.
Qed.

Lemma split_text_of_tokens toks :
  Forall Spec.plain_token toks → Str.split (Spec.text_of_tokens toks) = toks.
Proof.
  unfold Str.split. induction 1 as [|t r [Hne Ht] _ IH]; [done|]. simpl.
  rewrite split_go_token, str_app_nil_l by done.
  destruct t as [|c t]; [done|].
  inversion_clear Ht as [|?? [Hc _] _].
  rewrite str_app_cons, str_app_nil_l. simpl. by rewrite IH.
Qed.

(** Every list of plain tokens is the token list of a text. *)
Lemma raw_tokens_text_of_tokens toks :
  Forall Spec.plain_token toks → raw_tokens (Spec.text_of_tokens toks) = toks.
Proof.
  intros Htoks. unfold raw_tokens.
  rewrite replace_absent by (by apply text_of_tokens_no_comma).
  rewrite split_text_of_tokens by done.
  apply filter_all. intros t Ht.
  apply (proj1 (Forall_forall _ _) Htoks) in Ht as [Hne Hchars].
  by rewrite strip_no_space by (by apply token_no_space).
Qed.

Lemma comprehension_Forall2 {A B} (f : A → result B) xs ys :
  comprehension f xs = Ok ys ↔ Forall2 (λ x y, f x = Ok y) xs ys.
Proof.
  revert ys. induction xs as [|x xs IH]; intros ys; simpl.
  - split; [intros [= <-]; constructor|by inversion 1].
  - destruct (f x) as [y|e] eqn:Hx; simpl.
    + destruct (comprehension f xs) as [ys'|e] eqn:Hxs; simpl.
      * split.
        -- intros [= <-]. constructor; [done|]. by apply IH.
        -- inversion 1 as [|???? Hy Hys]; subst.
           apply IH in Hys. congruence.
      * split; [done|]. inversion 1 as [|???? Hy Hys]; subst.
        apply IH in Hys. done.
    + split; [done|]. inversion 1; congruence.
Qed.

Lemma comprehension_fmap {A B} (f : A → result B) (g : A → B) xs :
  Forall (λ x, f x = Ok (g x)) xs → comprehension f xs = Ok (g <$> xs).
Proof.
  induction 1 as [|x xs Hx _ IH]; simpl; [done|]. by rewrite Hx, IH.
Qed.
End tokens.

(** * Pitch arithmetic *)

Section pitch.
Implicit Types (use_flats : bool) (root_idx idx : Z).

Ltac below n k Hk :=
  let rec go i :=
    lazymatch i with
    | O => exfalso; lia
    | S ?j => destruct (decide (k = Z.of_nat j)) as [->|?]; [|go j]
    end in
  go n.

Lemma chromatic_get use_flats k :
  0 ≤ k < 12 →
  list_get (if use_flats then CHROMATIC_FLATS else CHROMATIC_SHARPS) k
  = Ok (Spec.spelling use_flats k).
Proof.
  intros Hk. below 12%nat k Hk; by destruct use_flats.
Qed.

Lemma degree_base_offset deg :
  dict_get DEGREE_BASE_OFFSETS (((deg - 1) `mod` 7) + 1)
  = Ok (Spec.wrapped_major_offset deg).
Proof.
  unfold Spec.wrapped_major_offset.
  pose proof (Z.mod_pos_bound (deg - 1) 7 eq_refl) as Hk.
  revert Hk. generalize ((deg - 1) `mod` 7). intros k Hk.
  below 7%nat k Hk; by vm_compute.
Qed.

Lemma degree_note_spec use_flats root_idx tok d :
  parse_degree_token tok = Ok d →
  degree_note (if use_flats then CHROMATIC_FLATS else CHROMATIC_SHARPS) root_idx tok
  = Ok (Spec.spelling use_flats (Spec.degree_pitch root_idx d)).
Proof.
  intros Hd. unfold degree_note. rewrite Hd. destruct d as [deg shift]. simpl.
  rewrite degree_base_offset. simpl.
  rewrite Zplus_mod_idemp_r, Z.add_assoc.
  apply chromatic_get. by apply Z.mod_pos_bound.
Qed.

Lemma degrees_loop_spec use_flats root_idx raw ds :
  Forall2 (λ tok d, parse_degree_token tok = Ok d) raw ds →
  ∀ notes,
    degrees_loop (if use_flats then CHROMATIC_FLATS else CHROMATIC_SHARPS) root_idx raw notes
    = Ok (notes ++ (Spec.spelling use_flats ∘ Spec.degree_pitch root_idx <$> ds)).
Proof.
  induction 1 as [|tok d raw ds Hd _ IH]; intros notes; simpl.
  - by rewrite app_nil_r.
  - rewrite (degree_note_spec _ _ _ _ Hd). simpl.
    by rewrite IH, <-app_assoc.
Qed.

Lemma tone_0 root_idx steps :
  0 ≤ root_idx < 12 → Spec.tone root_idx steps 0 = root_idx.
Proof.
  intros Hr. unfold Spec.tone. simpl. rewrite Z.add_0_r. by apply Z.mod_small.
Qed.

Lemma tone_S idx step rest i :
  Spec.tone idx (step :: rest) (S i) = Spec.tone ((idx + step) `mod` 12) rest i.
Proof.
  unfold Spec.tone. simpl. by rewrite Zplus_mod_idemp_l, Z.add_assoc.
Qed.

Lemma tone_bound idx steps i : 0 ≤ Spec.tone idx steps i < 12.
Proof. by apply Z.mod_pos_bound. Qed.

(** The loop invariant: after [i] steps [idx] is tone [i]. *)
Lemma scale_loop_spec steps : ∀ idx notes,
  scale_loop steps idx notes
  = Ok (notes ++ ((λ i, Spec.spelling false (Spec.tone idx steps (S i)))
                    <$> seq 0 (length steps))).
Proof.
  induction steps as [|step rest IH]; intros idx notes; simpl.
  - by rewrite app_nil_r.
  - rewrite (chromatic_get false) by (by apply Z.mod_pos_bound). simpl.
    rewrite IH, <-app_assoc. do 2 f_equal. simpl. f_equal.
    + f_equal. unfold Spec.tone. simpl. by rewrite Z.add_0_r.
    + rewrite <-fmap_S_seq, <-list_fmap_compose.
      apply list_fmap_ext. intros _ i _. simpl. by rewrite tone_S.
Qed.

Lemma removelast_fmap {A B} (f : A → B) (l : list A) :
  removelast (f <$> l) = f <$> removelast l.
Proof.
  induction l as [|x [|y l] IH]; [done..|].
  change (f x :: removelast (f <$> y :: l) = f x :: (f <$> removelast (y :: l))).
  by rewrite IH.
Qed.

Lemma removelast_Forall {A} (P : A → Prop) (l : list A) :
  Forall P l → Forall P (removelast l).
Proof.
  induction 1 as [|x [|y l] Hx Hl IH]; [constructor..|].
  change (Forall P (x :: removelast (y :: l))). by constructor.
Qed.

(** Line 155 turns the sharp spelling of a pitch class into its flat one. *)
Lemma respell_flat (l : list Z) :
  Forall (λ i, 0 ≤ i < 12) l →
  (λ n, dict_get_default SHARP_TO_FLAT n n) <$> (Spec.spelling false <$> l)
  = Spec.spelling true <$> l.
Proof.
  induction 1 as [|k l Hk _ IH]; [done|]. rewrite !fmap_cons, IH. f_equal.
  below 12%nat k Hk; by vm_compute.
Qed.

Lemma tones_bound root_idx steps :
  Forall (λ i, 0 ≤ i < 12) (Spec.tones root_idx steps).
Proof.
  unfold Spec.tones. apply Forall_fmap, Forall_forall. intros i _. apply tone_bound.
Qed.

Lemma tones_length root_idx steps :
  length (Spec.tones root_idx steps) = S (length steps).
Proof. unfold Spec.tones. by rewrite length_fmap, length_seq. Qed.

Lemma drops_last_spec steps :
  drops_last steps = true ↔ Spec.closing_count (length steps).
Proof.
  unfold drops_last, Spec.closing_count. rewrite bool_decide_eq_true.
  rewrite !elem_of_cons, elem_of_nil. lia.
Qed.

(** The list [notes] when the loop of [generate_scale] has ended. *)
Lemma scale_loop_tones root_idx steps :
  0 ≤ root_idx < 12 →
  scale_loop steps root_idx [Spec.spelling false root_idx]
  = Ok (Spec.spelling false <$> Spec.tones root_idx steps).
Proof.
  intros Hr. rewrite scale_loop_spec. f_equal. unfold Spec.tones.
  rewrite <-cons_seq, fmap_cons, tone_0 by done. simpl. f_equal.
  by rewrite <-fmap_S_seq, <-!list_fmap_compose.
Qed.
End pitch.

(** * The resolvers on token lists *)

Section resolvers.
Implicit Types (text root : string) (use_flats : bool) (toks : list string).

Lemma root_index root use_flats root_n :
  normalize_note root use_flats = Ok root_n →
  ∃ root_idx,
    (if use_flats then NOTE_TO_INDEX_FLATS else NOTE_TO_INDEX_SHARPS) !! root_n
    = Some root_idx
    ∧ 0 ≤ root_idx < 12
    ∧ Spec.spelling use_flats root_idx = root_n.
Proof.
  intros Hroot.
  destruct (normalize_note_index _ _ _ Hroot) as [root_idx Hidx].
  exists root_idx. split; [done|]. unfold Spec.spelling. destruct use_flats.
  - apply note_index_flats in Hidx as [? Hl]. by rewrite (nth_lookup_Some _ _ _ _ Hl).
  - apply note_index_sharps in Hidx as [? Hl]. by rewrite (nth_lookup_Some _ _ _ _ Hl).
Qed.

Lemma degrees_resolved text root use_flats root_n (ds : list (Z * Z)) :
  raw_tokens text ≠ [] →
  normalize_note root use_flats = Ok root_n →
  Forall2 (λ tok d, parse_degree_token tok = Ok d) (raw_tokens text) ds →
  ∃ root_idx,
    0 ≤ root_idx < 12
    ∧ Spec.spelling use_flats root_idx = root_n
    ∧ Forall (λ d, 0 ≤ Spec.degree_pitch root_idx d < 12) ds
    ∧ degrees_to_notes_text text root use_flats
      = Ok (Spec.first_occurrences
              (Spec.spelling use_flats ∘ Spec.degree_pitch root_idx <$> ds)).
Proof.
  intros Hne Hroot Hds.
  destruct (root_index _ _ _ Hroot) as (root_idx & Hidx & Hbound & Hspell).
  exists root_idx. split_and!; [lia|lia|done| |].
  - apply Forall_forall. intros d _. by apply Z.mod_pos_bound.
  - unfold degrees_to_notes_text, dict_get.
    rewrite bool_decide_eq_false_2 by done.
    rewrite Hroot, bind_Ok, Hidx, bind_Ok.
    rewrite (degrees_loop_spec use_flats root_idx _ ds Hds), bind_Ok.
    by rewrite unique_preserve_order_spec.
Qed.

(** The two resolvers on a list of plain tokens, handed over as a text. *)
Lemma parse_notes_text_tokens toks use_flats (ns : list string) :
  Forall Spec.plain_token toks →
  Forall2 (λ tok n, normalize_note tok use_flats = Ok n) toks ns →
  parse_notes_text (Spec.text_of_tokens toks) use_flats = Ok ns.
Proof.
  intros Hplain Hns. unfold parse_notes_text.
  rewrite raw_tokens_text_of_tokens by done. by apply comprehension_Forall2.
Qed.

Lemma degrees_to_notes_text_tokens toks root use_flats root_n (ds : list (Z * Z)) :
  toks ≠ [] →
  Forall Spec.plain_token toks →
  normalize_note root use_flats = Ok root_n →
  Forall2 (λ tok d, parse_degree_token tok = Ok d) toks ds →
  ∃ root_idx,
    0 ≤ root_idx < 12
    ∧ Spec.spelling use_flats root_idx = root_n
    ∧ degrees_to_notes_text (Spec.text_of_tokens toks) root use_flats
      = Ok (Spec.first_occurrences
              (Spec.spelling use_flats ∘ Spec.degree_pitch root_idx <$> ds)).
Proof.
  intros Hne Hplain Hroot Hds.
  destruct (degrees_resolved (Spec.text_of_tokens toks) root use_flats root_n ds)
    as (root_idx & ? & ? & _ & ?); rewrite ?raw_tokens_text_of_tokens by done; eauto.
Qed.
End resolvers.

(** * The claims *)

(** ** C1: the notes resolver *)

(** C1, as stated, fails: on the tokens C E G C, [parse_notes_text] returns
    all four names, the repeated C included, and not the three names the
    claim gives. *)
Lemma parse_notes_text_keeps_duplicates :
  raw_tokens "C E G C" = ["C"; "E"; "G"; "C"]
  ∧ parse_notes_text "C E G C" false = Ok ["C"; "E"; "G"; "C"]
  ∧ parse_notes_text "C E G C" false ≠ Ok ["C"; "E"; "G"]
  ∧ parse_notes_text "C E G C" false
    ≠ Ok (Spec.first_occurrences ["C"; "E"; "G"; "C"]).
Proof. by vm_compute. Qed.

(** C1, amended: when every token of the text normalises, [parse_notes_text]
    returns the normalised names one per token, in the order of the tokens
    and with repetitions kept. *)
Theorem parse_notes_text_spec (text : string) (use_flats : bool) (ns : list string) :
  Forall2 (λ tok n, normalize_note tok use_flats = Ok n) (raw_tokens text) ns →
  parse_notes_text text use_flats = Ok ns
  ∧ length ns = length (raw_tokens text).
Proof.
  intros Hns. split.
  - unfold parse_notes_text. by apply comprehension_Forall2.
  - symmetry. by eapply Forall2_length.
Qed.

Lemma parse_notes_text_spec_witness :
  parse_notes_text "C E G C" false = Ok ["C"; "E"; "G"; "C"]
  ∧ length ["C"; "E"; "G"; "C"] = length (raw_tokens "C E G C").
Proof.
  apply (parse_notes_text_spec "C E G C" false ["C"; "E"; "G"; "C"]).
  change (raw_tokens "C E G C") with ["C"; "E"; "G"; "C"].
  repeat constructor.
Defined.

(** ** C2: characters after the accidental *)

(** C2, as stated, fails: the three texts of the claim are normalised to a
    pitch class, none raises. *)
Lemma normalize_note_accepts_extra :
  normalize_note "C##" false = Ok "C#"
  ∧ normalize_note "Cbb" false = Ok "B"
  ∧ normalize_note "Cx" false = Ok "C".
Proof. by vm_compute. Qed.

(** C2, amended: [normalize_note] reads the first character and, when the
    second one is a sharp sign or a b in either case, that accidental; it
    ignores every character after them.  For a text whose first two
    characters are not white space, it returns, or fails to return, exactly
    as on the letter with its accidental alone, and as on the letter alone
    when the second character is no accidental. *)
Theorem normalize_note_ignores_rest (c0 c1 : ascii) (rest : string) (use_flats : bool) :
  Str.is_space c0 = false → Str.is_space c1 = false →
  value (normalize_note (String c0 (String c1 rest)) use_flats)
  = value (normalize_note (String c0 (String c1 "")) use_flats)
  ∧ (Str.upper_char c1 ≠ "#"%char → Str.upper_char c1 ≠ "B"%char →
     value (normalize_note (String c0 (String c1 rest)) use_flats)
     = value (normalize_note (String c0 "") use_flats)).
Proof.
  intros H0 H1. split.
  - by apply normalize_note_extra.
  - by apply normalize_note_letter.
Qed.

Lemma normalize_note_ignores_rest_witness :
  value (normalize_note "C##" false) = value (normalize_note "C#" false)
  ∧ (Str.upper_char "#" ≠ "#"%char → Str.upper_char "#" ≠ "B"%char →
     value (normalize_note "C##" false) = value (normalize_note "C" false)).
Proof.
  apply (normalize_note_ignores_rest "C" "#" "#" false); reflexivity.
Defined.

(** ** C3: the token 3b# *)

(** C3, as stated, fails: [parse_degree_token] does not reject the token
    3b#, it returns degree 3 with shift 0. *)
Lemma parse_degree_token_3b_sharp_accepted :
  parse_degree_token "3b#" = Ok (3, 0)
  ∧ ¬ raises_value_error (parse_degree_token "3b#").
Proof.
  split; [by vm_compute|]. intros [msg Hmsg]. by vm_compute in Hmsg.
Qed.

(** C3, amended: [parse_degree_token] accepts the token 3b#, whose two
    suffix accidentals cancel, as degree 3 with shift 0; the combined
    prefix and suffix token b3# is legal too and yields degree 3 with
    shift 0. *)
Theorem parse_degree_token_mixed_accidentals :
  parse_degree_token "3b#" = Ok (3, 0) ∧ parse_degree_token "b3#" = Ok (3, 0).
Proof. by vm_compute. Qed.

(** ** C4: the degrees resolver *)

(** C4: for a text with at least one token, all of whose tokens parse, and
    a root that normalises, [degrees_to_notes_text] returns the names of
    the pitch classes (root index + major offset of the wrapped degree +
    shift) mod 12, each in [0, 12), with later repetitions dropped; a text
    without tokens raises; and the tokens 1 b3 5 over C give C D# G. *)
Theorem degrees_to_notes_text_spec :
  (∀ (text root : string) (use_flats : bool) (root_n : string) (ds : list (Z * Z)),
     raw_tokens text ≠ [] →
     normalize_note root use_flats = Ok root_n →
     Forall2 (λ tok d, parse_degree_token tok = Ok d) (raw_tokens text) ds →
     ∃ root_idx,
       0 ≤ root_idx < 12
       ∧ Spec.spelling use_flats root_idx = root_n
       ∧ Forall (λ d, 0 ≤ Spec.degree_pitch root_idx d < 12) ds
       ∧ degrees_to_notes_text text root use_flats
         = Ok (Spec.first_occurrences
                 (Spec.spelling use_flats ∘ Spec.degree_pitch root_idx <$> ds)))
  ∧ (∀ (text root : string) (use_flats : bool),
       raw_tokens text = [] →
       degrees_to_notes_text text root use_flats
       = Raise (ValueError "No degree tokens provided"))
  ∧ degrees_to_notes_text "1 b3 5" "C" false = Ok ["C"; "D#"; "G"].
Proof.
  split_and!.
  - apply degrees_resolved.
  - intros text root use_flats Hnil. unfold degrees_to_notes_text.
    by rewrite Hnil.
  - by vm_compute.
Qed.

Lemma degrees_to_notes_text_spec_witness :
  ∃ root_idx,
    0 ≤ root_idx < 12
    ∧ Spec.spelling false root_idx = "C"
    ∧ Forall (λ d, 0 ≤ Spec.degree_pitch root_idx d < 12) [(1, 0); (3, -1); (5, 0)]
    ∧ degrees_to_notes_text "1 b3 5" "C" false
      = Ok (Spec.first_occurrences
              (Spec.spelling false ∘ Spec.degree_pitch root_idx <$> [(1, 0); (3, -1); (5, 0)])).
Proof.
  apply (proj1 degrees_to_notes_text_spec "1 b3 5" "C" false "C" [(1, 0); (3, -1); (5, 0)]).
  - vm_compute. discriminate.
  - vm_compute. reflexivity.
  - change (raw_tokens "1 b3 5") with ["1"; "b3"; "5"].
    repeat constructor.
Defined.

(** ** C5: the scale generator *)

(** C5: for a scale name of the table and a root that normalises,
    [generate_scale] computes one tone per step after the root, drops the
    last of them exactly when the pattern has 5, 6, 7, 8 or 12 steps, keeps
    them all otherwise, and returns the names with later repetitions
    dropped; C pentatonic_major gives C D E G A. *)
Theorem generate_scale_spec :
  (∀ (root mode : string) (scale_modes : gmap string (list Z)) (use_flats : bool)
     (root_n : string) (steps : list Z),
     scale_modes !! mode = Some steps →
     normalize_note root false = Ok root_n →
     ∃ root_idx,
       0 ≤ root_idx < 12
       ∧ Spec.spelling false root_idx = root_n
       ∧ length (Spec.tones root_idx steps) = S (length steps)
       ∧ (Spec.closing_count (length steps) →
          generate_scale root mode scale_modes use_flats
          = Ok (Spec.first_occurrences
                  (Spec.spelling use_flats <$> removelast (Spec.tones root_idx steps))))
       ∧ (¬ Spec.closing_count (length steps) →
          generate_scale root mode scale_modes use_flats
          = Ok (Spec.first_occurrences
                  (Spec.spelling use_flats <$> Spec.tones root_idx steps))))
  ∧ generate_scale "C" "pentatonic_major" SCALE_MODES false
    = Ok ["C"; "D"; "E"; "G"; "A"].
Proof.
  split; [|by vm_compute].
  intros root mode scale_modes use_flats root_n steps Hmode Hroot.
  destruct (normalize_note_index _ _ _ Hroot) as [root_idx Hidx]. simpl in Hidx.
  pose proof (note_index_sharps _ _ Hidx) as [Hbound Hl].
  assert (Spec.spelling false root_idx = root_n) as Hspell.
  { unfold Spec.spelling. by rewrite (nth_lookup_Some _ _ _ _ Hl). }
  assert (∀ kept : list Z,
    Forall (λ i, 0 ≤ i < 12) kept →
    unique_preserve_order
      (if use_flats
       then (λ n, dict_get_default SHARP_TO_FLAT n n) <$> (Spec.spelling false <$> kept)
       else Spec.spelling false <$> kept)
    = Spec.first_occurrences (Spec.spelling use_flats <$> kept)) as Hout.
  { intros kept Hkept. rewrite unique_preserve_order_spec.
    destruct use_flats; [|done]. by rewrite respell_flat. }
  exists root_idx. split_and!; [lia|lia|done|apply tones_length| |].
  - intros Hclose%drops_last_spec. unfold generate_scale, dict_get.
    rewrite Hmode, Hroot, bind_Ok, Hidx, bind_Ok.
    rewrite <-Hspell, scale_loop_tones, bind_Ok by done.
    cbv zeta. rewrite Hclose, removelast_fmap, Hout; [done|].
    apply removelast_Forall, tones_bound.
  - intros Hopen. unfold generate_scale, dict_get.
    rewrite Hmode, Hroot, bind_Ok, Hidx, bind_Ok.
    rewrite <-Hspell, scale_loop_tones, bind_Ok by done.
    cbv zeta. destruct (drops_last steps) eqn:Hdrop.
    { by apply drops_last_spec in Hdrop. }
    rewrite Hout; [done|]. apply tones_bound.
Qed.

Lemma generate_scale_spec_witness :
  ∃ root_idx,
    0 ≤ root_idx < 12
    ∧ Spec.spelling false root_idx = "C"
    ∧ length (Spec.tones root_idx [2; 2; 3; 2; 3]) = 6%nat
    ∧ (Spec.closing_count 5 →
       generate_scale "C" "pentatonic_major" SCALE_MODES true
       = Ok (Spec.first_occurrences
               (Spec.spelling true <$> removelast (Spec.tones root_idx [2; 2; 3; 2; 3]))))
    ∧ (¬ Spec.closing_count 5 →
       generate_scale "C" "pentatonic_major" SCALE_MODES true
       = Ok (Spec.first_occurrences
               (Spec.spelling true <$> Spec.tones root_idx [2; 2; 3; 2; 3]))).
Proof.
  apply (proj1 generate_scale_spec "C" "pentatonic_major" SCALE_MODES true "C"
           [2; 2; 3; 2; 3]).
  - vm_compute. reflexivity.
  - vm_compute. reflexivity.
Defined.

(** ** C6: the degree grammar *)




(** ** C7: idempotence and enharmonic spellings *)

(** C7: with the flag fixed, normalising the name that [normalize_note]
    returned returns it again; the two names of every entry of the
    respelling tables normalise to one name, which has an index; C# and Db
    in particular are normalised alike. *)
Theorem normalize_note_idempotent :
  (∀ (n : string) (use_flats : bool) (m : string),
     normalize_note n use_flats = Ok m → normalize_note m use_flats = Ok m)
  ∧ (∀ (a b : string) (use_flats : bool),
       SHARP_TO_FLAT !! a = Some b ∨ FLAT_TO_SHARP !! a = Some b ∨ ENHARMONIC !! a = Some b →
       ∃ m i,
         normalize_note a use_flats = Ok m ∧ normalize_note b use_flats = Ok m
         ∧ (if use_flats then NOTE_TO_INDEX_FLATS else NOTE_TO_INDEX_SHARPS) !! m = Some i)
  ∧ (∀ use_flats : bool,
       normalize_note "C#" use_flats = normalize_note "Db" use_flats
       ∧ is_Some (value (normalize_note "C#" use_flats))).
Proof.
  split_and!.
  - intros n use_flats m Hm. by apply normalize_note_fixed, (normalize_note_range n).
  - intros a b use_flats. apply enharmonic_pairs.
  - intros []; (split; [by vm_compute|vm_compute; eauto]).
Qed.

Lemma normalize_note_idempotent_witness :
  normalize_note "Bb" true = Ok "Bb"
  ∧ ∃ m i,
      normalize_note "Fb" false = Ok m ∧ normalize_note "E" false = Ok m
      ∧ NOTE_TO_INDEX_SHARPS !! m = Some i.
Proof.
  split.
  - apply (proj1 normalize_note_idempotent "bb" true "Bb"). vm_compute. reflexivity.
  - apply (proj1 (proj2 normalize_note_idempotent) "Fb" "E" false).
    right. left. vm_compute. reflexivity.
Defined.

(** ** C9: blank texts *)

(** C9: on a text of white space and commas only, the empty text included,
    [parse_notes_text] returns the empty list, while
    [degrees_to_notes_text] raises: only the degrees path has the
    empty-input failure. *)
Theorem parse_notes_text_blank (text root : string) (use_flats : bool) :
  Spec.chars Spec.blank text →
  parse_notes_text text use_flats = Ok []
  ∧ degrees_to_notes_text text root use_flats
    = Raise (ValueError "No degree tokens provided").
Proof.
  intros Hnil%raw_tokens_blank. split.
  - unfold parse_notes_text. by rewrite Hnil.
  - unfold degrees_to_notes_text. by rewrite Hnil.
Qed.

Lemma parse_notes_text_blank_witness :
  parse_notes_text " , " false = Ok []
  ∧ degrees_to_notes_text " , " "C" false
    = Raise (ValueError "No degree tokens provided").
Proof.
  apply (parse_notes_text_blank " , " "C" false).
  constructor; [left; reflexivity|].
  constructor; [right; reflexivity|].
  constructor; [left; reflexivity|].
  constructor.
Defined.

(** ** C10: degree zero *)

(** C10: [parse_degree_token] returns (0, 0) for the token 0; the wrap
    ((0 - 1) mod 7) + 1 is 7, whose base offset is 11, so
    [degrees_to_notes_text] resolves the token 0 over the root C to B. *)
Theorem degree_zero :
  parse_degree_token "0" = Ok (0, 0)
  ∧ ((0 - 1) `mod` 7) + 1 = 7
  ∧ DEGREE_BASE_OFFSETS !! (((0 - 1) `mod` 7) + 1) = Some 11
  ∧ Spec.degree_pitch 0 (0, 0) = 11
  ∧ degrees_to_notes_text "0" "C" false = Ok ["B"].
Proof. by vm_compute. Qed.

(** * Further properties of the code *)

(** ** Tokens *)

Section more_tokens.
Implicit Types (text cur s t : string) (toks : list string).

Lemma chars_app (P : ascii → Prop) s t :
  Spec.chars P s → Spec.chars P t → Spec.chars P (s +:+ t).
Proof.
  induction 1 as [|c s Hc _ IH]; intros Ht; [done|].
  rewrite str_app_cons. constructor; auto.
Qed.

Lemma split_go_plain s : ∀ cur,
  Spec.chars Spec.token_char cur →
  Spec.chars (λ c, c ≠ ","%char) s →
  Forall Spec.plain_token (Str.split_go cur s).
Proof.
  induction s as [|c s IH]; intros cur Hcur Hs; simpl.
  - destruct cur; simpl; [constructor|]. constructor; [by split|constructor].
  - inversion_clear Hs as [|?? Hc Hs'].
    destruct (Str.is_space c) eqn:Hsp.
    + destruct cur as [|a cur'].
      * apply IH; [constructor|done].
      * constructor; [by split|]. apply IH; [constructor|done].
    + apply IH; [|done]. apply chars_app; [done|]. by repeat constructor.
Qed.

Lemma replaced_no_comma text :
  Spec.chars (λ c, c ≠ ","%char) (Str.replace "," " " text).
Proof.
  rewrite replace_char. induction text as [|c s IH]; simpl; constructor; [|done].
  destruct (decide (","%char = c)); [done|congruence].
Qed.

Lemma split_plain text : Forall Spec.plain_token (Str.split (Str.replace "," " " text)).
Proof. apply split_go_plain; [constructor|apply replaced_no_comma]. Qed.

Lemma plain_strip t : Spec.plain_token t → Str.strip t ≠ "".
Proof.
  intros [Hne Ht]. by rewrite strip_no_space by (by apply token_no_space).
Qed.
End more_tokens.

(** The tokens a text is split into are never empty and hold no white
    space and no comma, so the test [if x.strip()] of lines 46 and 115 lets
    every one of them through. *)
Theorem raw_tokens_plain (text : string) :
  Forall Spec.plain_token (raw_tokens text)
  ∧ raw_tokens text = Str.split (Str.replace "," " " text).
Proof.
  assert (raw_tokens text = Str.split (Str.replace "," " " text)) as Heq.
  { unfold raw_tokens. apply filter_all. intros t Ht. apply plain_strip.
    by apply (proj1 (Forall_forall _ _) (split_plain text)). }
  split; [|done]. rewrite Heq. apply split_plain.
Qed.

(** Splitting undoes joining: a list of tokens that are not empty and hold
    no white space and no comma, written out with a space after each, is
    split into that same list. *)
Theorem raw_tokens_round_trip (toks : list string) :
  Forall Spec.plain_token toks → raw_tokens (Spec.text_of_tokens toks) = toks.
Proof.
  intros Htoks. unfold raw_tokens.
  rewrite replace_absent by (by apply text_of_tokens_no_comma).
  rewrite split_text_of_tokens by done.
  apply filter_all. intros t Ht. apply plain_strip.
  by apply (proj1 (Forall_forall _ _) Htoks).
Qed.

Lemma raw_tokens_round_trip_witness :
  raw_tokens (Spec.text_of_tokens ["C#"; "b3"]) = ["C#"; "b3"].
Proof.
  apply (raw_tokens_round_trip ["C#"; "b3"]).
  repeat constructor; try discriminate; reflexivity.
Defined.

(** ** [unique_preserve_order] *)

(** [unique_preserve_order] returns a list without repetitions that holds
    exactly the elements of its argument, in the order of the argument,
    starting with the same element. *)
Theorem unique_preserve_order_set (items : list string) :
  NoDup (unique_preserve_order items)
  ∧ (∀ x, x ∈ unique_preserve_order items ↔ x ∈ items)
  ∧ unique_preserve_order items `sublist_of` items
  ∧ head (unique_preserve_order items) = head items.
Proof.
  rewrite unique_preserve_order_spec. split_and!.
  - apply NoDup_first_occurrences.
  - intros x. apply elem_of_first_occurrences.
  - apply first_occurrences_sublist.
  - by destruct items.
Qed.

(** A list without repetitions is returned as it is, and so
    [unique_preserve_order] changes nothing when applied a second time. *)
Theorem unique_preserve_order_idempotent (items : list string) :
  (NoDup items → unique_preserve_order items = items)
  ∧ unique_preserve_order (unique_preserve_order items) = unique_preserve_order items.
Proof.
  rewrite !unique_preserve_order_spec. split.
  - apply first_occurrences_NoDup_id.
  - apply first_occurrences_NoDup_id, NoDup_first_occurrences.
Qed.

Lemma unique_preserve_order_idempotent_witness :
  unique_preserve_order ["C"; "E"; "G"] = ["C"; "E"; "G"].
Proof.
  apply (proj1 (unique_preserve_order_idempotent ["C"; "E"; "G"])).
  repeat constructor; rewrite ?elem_of_cons, ?elem_of_nil;
    intros H; repeat destruct H as [H|H]; discriminate || done.
Defined.

(** ** [normalize_note] *)

Section more_normaliser.
Implicit Types (note n m : string) (use_flats : bool) (c : ascii).

Ltac by_cases c := destruct c as [[] [] [] [] [] [] [] []].

Lemma normalize_note_unfold note use_flats :
  normalize_note note use_flats
  = if bool_decide (Normal.cleaned note = "")
    then Raise (ValueError "Empty note")
    else Normal.spell (letter_and_accidental (Normal.cleaned note)) use_flats note.
Proof. done. Qed.

Lemma spell_value n use_flats note note' :
  value (Normal.spell n use_flats note) = value (Normal.spell n use_flats note').
Proof.
  unfold Normal.spell.
  match goal with |- context [NOTE_TO_INDEX_SHARPS !! ?x] => generalize x end.
  intros k. destruct (NOTE_TO_INDEX_SHARPS !! k); [|done].
  destruct use_flats; [destruct (SHARP_TO_FLAT !! k)|]; done.
Qed.

Lemma lstrip_cases note :
  (Str.lstrip note = "" ∧ Str.all Str.is_space note = true)
  ∨ (∃ c r, Str.lstrip note = String c r ∧ Str.is_space c = false
            ∧ Str.all Str.is_space note = false).
Proof.
  induction note as [|c s IH]; simpl; [by left|].
  destruct (Str.is_space c) eqn:Hc; simpl; [done|]. right. eauto.
Qed.

Lemma replace_space_head c s :
  c ≠ " "%char → Str.replace " " "" (String c s) = String c (Str.replace " " "" s).
Proof.
  intros Hc. unfold Str.replace. simpl. by rewrite decide_False by congruence.
Qed.

(** The text of line 21 starts with the first character that is not
    white space, in upper case. *)
Lemma cleaned_head note c r :
  Str.lstrip note = String c r → Str.is_space c = false →
  ∃ r', Normal.cleaned note = String (Str.upper_char c) r'.
Proof.
  intros Hl Hc. unfold Normal.cleaned, Str.strip. rewrite Hl, rstrip_head by done.
  unfold Str.upper. simpl. rewrite replace_space_head; [eauto|].
  intros Heq%upper_char_space. by subst c.
Qed.

Lemma cleaned_blank note : Str.lstrip note = "" → Normal.cleaned note = "".
Proof. intros Hl. unfold Normal.cleaned, Str.strip. by rewrite Hl. Qed.


End more_normaliser.
Section case_facts.
Implicit Types (note s : string) (c : ascii) (g : ascii → ascii).

Ltac by_cases c := destruct c as [[] [] [] [] [] [] [] []].

Lemma is_space_upper c : Str.is_space (Str.upper_char c) = Str.is_space c.
Proof. by by_cases c. Qed.

Lemma is_space_lower c : Str.is_space (Str.lower_char c) = Str.is_space c.
Proof. by by_cases c. Qed.

Lemma upper_upper c : Str.upper_char (Str.upper_char c) = Str.upper_char c.
Proof. by by_cases c. Qed.

Lemma upper_lower c : Str.upper_char (Str.lower_char c) = Str.upper_char c.
Proof. by by_cases c. Qed.

Lemma lstrip_map g s :
  (∀ c, Str.is_space (g c) = Str.is_space c) →
  Str.lstrip (Str.map g s) = Str.map g (Str.lstrip s).
Proof.
  intros Hg. induction s as [|c s IH]; [done|]. simpl. rewrite Hg.
  by destruct (Str.is_space c).
Qed.

Lemma rstrip_map g s :
  (∀ c, Str.is_space (g c) = Str.is_space c) →
  Str.rstrip (Str.map g s) = Str.map g (Str.rstrip s).
Proof.
  intros Hg. induction s as [|c s IH]; [done|]. simpl. rewrite IH, Hg.
  destruct (Str.rstrip s); simpl; [|done]. by destruct (Str.is_space c).
Qed.

Lemma map_map (f g : ascii → ascii) s : Str.map f (Str.map g s) = Str.map (f ∘ g) s.
Proof. induction s as [|c s IH]; [done|]. simpl. by rewrite IH. Qed.

Lemma map_ext (f g : ascii → ascii) s : (∀ c, f c = g c) → Str.map f s = Str.map g s.
Proof. intros Hfg. induction s as [|c s IH]; [done|]. simpl. by rewrite Hfg, IH. Qed.

(** Line 21 does not see a change of case. *)
Lemma cleaned_map g note :
  (∀ c, Str.is_space (g c) = Str.is_space c) →
  (∀ c, Str.upper_char (g c) = Str.upper_char c) →
  Normal.cleaned (Str.map g note) = Normal.cleaned note.
Proof.
  intros Hsp Hup. unfold Normal.cleaned, Str.strip.
  rewrite lstrip_map, rstrip_map by done. unfold Str.upper.
  rewrite map_map. f_equal. by apply map_ext.
Qed.

Lemma normalize_note_map g note use_flats :
  (∀ c, Str.is_space (g c) = Str.is_space c) →
  (∀ c, Str.upper_char (g c) = Str.upper_char c) →
  value (normalize_note (Str.map g note) use_flats) = value (normalize_note note use_flats).
Proof.
  intros Hsp Hup. rewrite !normalize_note_unfold, cleaned_map by done.
  case_bool_decide; [done|]. apply spell_value.
Qed.
End case_facts.


(** [normalize_note] does not see the case of the text: the text in upper
    case and the text in lower case give what the text gives. *)
Theorem normalize_note_case (note : string) (use_flats : bool) :
  value (normalize_note (Str.upper note) use_flats) = value (normalize_note note use_flats)
  ∧ value (normalize_note (Str.lower note) use_flats) = value (normalize_note note use_flats).
Proof.
  split.
  - apply normalize_note_map; [apply is_space_upper|apply upper_upper].
  - apply normalize_note_map; [apply is_space_lower|apply upper_lower].
Qed.

(** The sharp and the flat result of [normalize_note], side by side. *)
Lemma normalize_sharp_flat (note : string) :
  (∀ m, normalize_note note false = Ok m →
        ∃ i, 0 ≤ i < 12
             ∧ NOTE_TO_INDEX_SHARPS !! m = Some i
             ∧ normalize_note note true = Ok (Spec.spelling true i)
             ∧ NOTE_TO_INDEX_FLATS !! Spec.spelling true i = Some i)
  ∧ (∀ e, normalize_note note false = Raise e → normalize_note note true = Raise e).
Proof.
  rewrite !normalize_note_unfold. case_bool_decide; [by split|].
  unfold Normal.spell.
  match goal with |- context [NOTE_TO_INDEX_SHARPS !! ?x] => generalize x end.
  intros n. destruct (NOTE_TO_INDEX_SHARPS !! n) as [i|] eqn:Hi; [|by split].
  split; [|done]. intros m [= <-]. exists i.
  pose proof (note_index_sharps _ _ Hi) as [Hb Hl%list_elem_of_lookup_2].
  split; [done|]. split; [done|].
  revert Hi. revert Hl. unfold CHROMATIC_SHARPS. rewrite !elem_of_cons, elem_of_nil.
  intros Hn. repeat (destruct Hn as [->|Hn]; [intros [= <-]; by vm_compute|]). done.
Qed.

(** The flag changes the spelling only: when the text normalises to a
    sharp name of index [i], it normalises to the flat name of the same
    index under the flag, and a text that fails without the flag fails with
    the same error under it. *)
Theorem normalize_note_flag (note : string) :
  (∀ m, normalize_note note false = Ok m →
        ∃ i, 0 ≤ i < 12
             ∧ NOTE_TO_INDEX_SHARPS !! m = Some i
             ∧ normalize_note note true = Ok (Spec.spelling true i)
             ∧ NOTE_TO_INDEX_FLATS !! Spec.spelling true i = Some i)
  ∧ (∀ e, normalize_note note false = Raise e → normalize_note note true = Raise e).
Proof. apply normalize_sharp_flat. Qed.

Lemma normalize_note_flag_witness :
  ∃ i, 0 ≤ i < 12
       ∧ NOTE_TO_INDEX_SHARPS !! "A#" = Some i
       ∧ normalize_note "bb" true = Ok (Spec.spelling true i)
       ∧ NOTE_TO_INDEX_FLATS !! Spec.spelling true i = Some i.
Proof.
  apply (proj1 (normalize_note_flag "bb") "A#"). vm_compute. reflexivity.
Defined.

(** [normalize_note] raises [Empty note] exactly on a text of white space
    only; every other failure is [Unsupported note] with the text as it was
    given. *)
Theorem normalize_note_errors (note : string) (use_flats : bool) :
  (Str.all Str.is_space note = true →
   normalize_note note use_flats = Raise (ValueError "Empty note"))
  ∧ (Str.all Str.is_space note = false →
     ∀ e, normalize_note note use_flats = Raise e →
          e = ValueError ("Unsupported note: " +:+ note)).
Proof.
  rewrite normalize_note_unfold.
  destruct (lstrip_cases note) as [[Hl Hall]|(c & r & Hl & Hc & Hall)].
  - rewrite (cleaned_blank _ Hl), Hall. by split.
  - destruct (cleaned_head _ _ _ Hl Hc) as [r' ->]. rewrite Hall.
    rewrite bool_decide_eq_false_2 by done. split; [done|]. intros _ e.
    unfold Normal.spell.
    match goal with |- context [NOTE_TO_INDEX_SHARPS !! ?x] => generalize x end.
    intros n. destruct (NOTE_TO_INDEX_SHARPS !! n); [|by intros [= <-]].
    destruct use_flats; [destruct (SHARP_TO_FLAT !! n)|]; done.
Qed.

Lemma normalize_note_errors_witness :
  normalize_note "  " false = Raise (ValueError "Empty note").
Proof.
  apply (proj1 (normalize_note_errors "  " false)). reflexivity.
Defined.
(** ** Errors of the resolvers *)

Section resolver_errors.
Implicit Types (text root : string) (use_flats : bool) (e : exn).

Lemma comprehension_first_error {A B} (f : A → result B) good bad rest (ys : list B) e :
  Forall2 (λ x y, f x = Ok y) good ys → f bad = Raise e →
  comprehension f (good ++ bad :: rest) = Raise e.
Proof.
  induction 1 as [|x y good ys Hx _ IH]; intros Hbad; simpl.
  - by rewrite Hbad.
  - by rewrite Hx, bind_Ok, IH.
Qed.

Lemma comprehension_raises {A B} (f : A → result B) xs e :
  comprehension f xs = Raise e → ∃ x, x ∈ xs ∧ f x = Raise e.
Proof.
  induction xs as [|x xs IH]; simpl; [done|].
  destruct (f x) as [y|e'] eqn:Hx.
  - rewrite bind_Ok. destruct (comprehension f xs) as [ys|e'] eqn:Hxs; [done|].
    rewrite bind_Raise. intros [= ->]. destruct IH as (x' & ? & ?); [done|].
    exists x'. split; [by right|done].
  - rewrite bind_Raise. intros [= ->]. exists x. split; [by left|done].
Qed.

Lemma degrees_loop_first_error use_flats root_idx good bad rest ds e :
  Forall2 (λ tok d, parse_degree_token tok = Ok d) good ds →
  parse_degree_token bad = Raise e →
  ∀ notes,
    degrees_loop (if use_flats then CHROMATIC_FLATS else CHROMATIC_SHARPS) root_idx
      (good ++ bad :: rest) notes = Raise e.
Proof.
  induction 1 as [|tok d good ds Hd _ IH]; intros Hbad notes; simpl.
  - unfold degree_note. by rewrite Hbad.
  - rewrite (degree_note_spec _ _ _ _ Hd), bind_Ok. by apply IH.
Qed.

Lemma degrees_loop_raises use_flats root_idx raw : ∀ notes e,
  degrees_loop (if use_flats then CHROMATIC_FLATS else CHROMATIC_SHARPS) root_idx raw notes
  = Raise e →
  ∃ tok, tok ∈ raw ∧ parse_degree_token tok = Raise e.
Proof.
  induction raw as [|tok raw IH]; intros notes e; simpl; [done|].
  destruct (parse_degree_token tok) as [d|e'] eqn:Hd.
  - rewrite (degree_note_spec _ _ _ _ Hd), bind_Ok. intros (t & ? & ?)%IH.
    exists t. split; [by right|done].
  - unfold degree_note. rewrite Hd, bind_Raise. intros [= ->].
    exists tok. split; [by left|done].
Qed.
End resolver_errors.

(** [parse_notes_text] stops at the first token that does not normalise
    and raises the error of that token; when it returns, every name is one
    of the twelve names of the chosen spelling. *)
Theorem parse_notes_text_first_error (text : string) (use_flats : bool) :
  (∀ good bad rest ns e,
     raw_tokens text = good ++ bad :: rest →
     Forall2 (λ tok n, normalize_note tok use_flats = Ok n) good ns →
     normalize_note bad use_flats = Raise e →
     parse_notes_text text use_flats = Raise e)
  ∧ (∀ ns, parse_notes_text text use_flats = Ok ns →
           Forall (λ n, n ∈ (if use_flats then CHROMATIC_FLATS else CHROMATIC_SHARPS)) ns).
Proof.
  split.
  - intros good bad rest ns e Hraw Hgood Hbad. unfold parse_notes_text.
    rewrite Hraw. by eapply comprehension_first_error.
  - intros ns Hns%comprehension_Forall2.
    induction Hns as [|tok n toks ns Hn _ IH]; constructor; [|done].
    by eapply normalize_note_range.
Qed.

Lemma parse_notes_text_first_error_witness :
  parse_notes_text "C H J" false = Raise (ValueError "Unsupported note: H").
Proof.
  apply (proj1 (parse_notes_text_first_error "C H J" false) ["C"] "H" ["J"] ["C"]).
  - reflexivity.
  - repeat constructor.
  - reflexivity.
Defined.

(** The order of the checks of [degrees_to_notes_text]: a text without
    tokens raises [No degree tokens provided] whatever the root is; with
    tokens, a root that does not normalise raises its own error whatever
    the tokens are; with a good root, the first token that does not parse
    raises its error. *)
Theorem degrees_to_notes_text_error_order (text root : string) (use_flats : bool) :
  (raw_tokens text = [] →
   degrees_to_notes_text text root use_flats = Raise (ValueError "No degree tokens provided"))
  ∧ (∀ e, raw_tokens text ≠ [] → normalize_note root use_flats = Raise e →
          degrees_to_notes_text text root use_flats = Raise e)
  ∧ (∀ root_n good bad rest ds e,
       normalize_note root use_flats = Ok root_n →
       raw_tokens text = good ++ bad :: rest →
       Forall2 (λ tok d, parse_degree_token tok = Ok d) good ds →
       parse_degree_token bad = Raise e →
       degrees_to_notes_text text root use_flats = Raise e).
Proof.
  split_and!.
  - intros Hnil. unfold degrees_to_notes_text. by rewrite Hnil.
  - intros e Hne Hroot. unfold degrees_to_notes_text.
    by rewrite bool_decide_eq_false_2, Hroot by done.
  - intros root_n good bad rest ds e Hroot Hraw Hgood Hbad.
    destruct (root_index _ _ _ Hroot) as (root_idx & Hidx & _).
    unfold degrees_to_notes_text, dict_get.
    rewrite bool_decide_eq_false_2 by (rewrite Hraw; by destruct good).
    rewrite Hroot, bind_Ok, Hidx, bind_Ok, Hraw.
    by rewrite (degrees_loop_first_error _ _ _ _ _ ds e Hgood Hbad).
Qed.

Lemma degrees_to_notes_text_error_order_witness :
  degrees_to_notes_text "" "H" false = Raise (ValueError "No degree tokens provided")
  ∧ degrees_to_notes_text "1 y" "H" false = Raise (ValueError "Unsupported note: H")
  ∧ degrees_to_notes_text "1 y z" "C" false = Raise (invalid_degree_token "y").
Proof.
  split_and!.
  - apply (proj1 (degrees_to_notes_text_error_order "" "H" false)). reflexivity.
  - apply (proj1 (proj2 (degrees_to_notes_text_error_order "1 y" "H" false))).
    + vm_compute. discriminate.
    + reflexivity.
  - apply (proj2 (proj2 (degrees_to_notes_text_error_order "1 y z" "C" false))
             "C" ["1"] "y" ["z"] [(1, 0)]).
    + reflexivity.
    + reflexivity.
    + repeat constructor.
    + reflexivity.
Defined.

(** The three resolvers raise nothing but [ValueError]: no lookup in a
    table and no index into a list of names fails, whatever the text, the
    root and the scale table are. *)
Theorem resolvers_raise_value_error :
  (∀ text use_flats e,
     parse_notes_text text use_flats = Raise e → ∃ msg, e = ValueError msg)
  ∧ (∀ text root use_flats e,
       degrees_to_notes_text text root use_flats = Raise e → ∃ msg, e = ValueError msg)
  ∧ (∀ root mode (scale_modes : gmap string (list Z)) use_flats e,
       generate_scale root mode scale_modes use_flats = Raise e → ∃ msg, e = ValueError msg).
Proof.
  split_and!.
  - intros text use_flats e (tok & _ & Htok)%comprehension_raises.
    by eapply normalize_note_raises.
  - intros text root use_flats e. unfold degrees_to_notes_text, dict_get.
    case_bool_decide; [intros [= <-]; eauto|].
    destruct (normalize_note root use_flats) as [root_n|e'] eqn:Hroot.
    + destruct (root_index _ _ _ Hroot) as (root_idx & Hidx & _).
      rewrite bind_Ok, Hidx, bind_Ok.
      destruct (degrees_loop _ root_idx (raw_tokens text) []) as [notes|e'] eqn:Hloop;
        [done|]. rewrite bind_Raise. intros [= ->].
      apply degrees_loop_raises in Hloop as (tok & _ & Htok).
      by eapply parse_degree_token_raises.
    + rewrite bind_Raise. intros [= ->]. by eapply normalize_note_raises.
  - intros root mode scale_modes use_flats e. unfold generate_scale, dict_get.
    destruct (scale_modes !! mode) as [steps|]; [|intros [= <-]; eauto].
    destruct (normalize_note root false) as [root_n|e'] eqn:Hroot.
    + destruct (root_index _ _ _ Hroot) as (root_idx & Hidx & Hb & <-).
      rewrite bind_Ok, Hidx, bind_Ok, scale_loop_tones by done. done.
    + rewrite bind_Raise. intros [= ->]. by eapply normalize_note_raises.
Qed.

Lemma resolvers_raise_value_error_witness :
  ∃ msg, ValueError "Unsupported mode: nope" = ValueError msg.
Proof.
  apply (proj2 (proj2 resolvers_raise_value_error) "C" "nope" SCALE_MODES false).
  vm_compute. reflexivity.
Defined.
(** ** Results of the resolvers *)

Section results.
Implicit Types (text root mode : string) (use_flats : bool) (steps : list Z).

Ltac below n k Hk :=
  let rec go i :=
    lazymatch i with
    | O => exfalso; lia
    | S ?j => destruct (decide (k = Z.of_nat j)) as [->|?]; [|go j]
    end in
  go n.

Lemma spelling_elem use_flats k :
  0 ≤ k < 12 →
  Spec.spelling use_flats k ∈ (if use_flats then CHROMATIC_FLATS else CHROMATIC_SHARPS).
Proof.
  intros Hk. below 12%nat k Hk; destruct use_flats; vm_compute; repeat constructor.
Qed.

Lemma spelling_inj use_flats i j :
  0 ≤ i < 12 → 0 ≤ j < 12 →
  Spec.spelling use_flats i = Spec.spelling use_flats j → i = j.
Proof.
  intros Hi Hj. below 12%nat i Hi; below 12%nat j Hj; destruct use_flats; by vm_compute.
Qed.

Lemma names_bounded use_flats (l : list string) :
  NoDup l →
  Forall (λ n, n ∈ (if use_flats then CHROMATIC_FLATS else CHROMATIC_SHARPS)) l →
  (length l ≤ 12)%nat.
Proof.
  intros Hnd Hl.
  assert (l ⊆+ (if use_flats then CHROMATIC_FLATS else CHROMATIC_SHARPS)) as Hsub.
  { apply NoDup_submseteq; [done|]. by apply Forall_forall. }
  apply submseteq_length in Hsub. by destruct use_flats.
Qed.

Lemma first_occurrences_names use_flats (ks : list Z) :
  Forall (λ k, 0 ≤ k < 12) ks →
  let l := Spec.first_occurrences (Spec.spelling use_flats <$> ks) in
  NoDup l
  ∧ Forall (λ n, n ∈ (if use_flats then CHROMATIC_FLATS else CHROMATIC_SHARPS)) l
  ∧ (length l ≤ 12)%nat
  ∧ (length l ≤ length ks)%nat.
Proof.
  intros Hks l.
  assert (Forall (λ n, n ∈ (if use_flats then CHROMATIC_FLATS else CHROMATIC_SHARPS)) l)
    as Hl.
  { apply Forall_forall. intros n Hn. subst l.
    apply (proj1 (elem_of_first_occurrences _ _)) in Hn.
    apply list_elem_of_fmap in Hn as (k & -> & Hk).
    apply spelling_elem. by apply (proj1 (Forall_forall _ _) Hks). }
  pose proof (NoDup_first_occurrences (Spec.spelling use_flats <$> ks)) as Hnd.
  split_and!; [done|done|by eapply names_bounded|].
  pose proof (sublist_length _ _ (first_occurrences_sublist (Spec.spelling use_flats <$> ks))) as Hlen.
  by rewrite length_fmap in Hlen.
Qed.

(** Every token parses, or there is a first one that does not. *)
Lemma tokens_parse_or_not (raw : list string) :
  (∃ ds, Forall2 (λ tok d, parse_degree_token tok = Ok d) raw ds)
  ∨ (∃ good bad rest ds e,
       raw = good ++ bad :: rest
       ∧ Forall2 (λ tok d, parse_degree_token tok = Ok d) good ds
       ∧ parse_degree_token bad = Raise e).
Proof.
  induction raw as [|tok raw IH]; [left; exists []; constructor|].
  destruct (parse_degree_token tok) as [d|e] eqn:Hd.
  - destruct IH as [[ds Hds]|(good & bad & rest & ds & e & -> & Hgood & Hbad)].
    + left. exists (d :: ds). by constructor.
    + right. exists (tok :: good), bad, rest, (d :: ds), e.
      split_and!; [done|by constructor|done].
  - right. exists [], tok, raw, [], e. split_and!; [done|constructor|done].
Qed.

Lemma degree_pitch_wrap root_idx d s k j :
  Spec.degree_pitch root_idx (d + 7 * k, s + 12 * j) = Spec.degree_pitch root_idx (d, s).
Proof.
  unfold Spec.degree_pitch, Spec.wrapped_major_offset. simpl.
  replace (d + 7 * k - 1) with (d - 1 + k * 7) by lia.
  rewrite Z_mod_plus_full.
  replace (root_idx + Spec.major_offset ((d - 1) `mod` 7 + 1) + (s + 12 * j))
    with (root_idx + Spec.major_offset ((d - 1) `mod` 7 + 1) + s + j * 12) by lia.
  by rewrite Z_mod_plus_full.
Qed.

(** The result of [generate_scale], for any table. *)
Lemma generate_scale_tones root mode (scale_modes : gmap string (list Z)) use_flats
    root_n steps :
  scale_modes !! mode = Some steps →
  normalize_note root false = Ok root_n →
  ∃ root_idx,
    0 ≤ root_idx < 12
    ∧ NOTE_TO_INDEX_SHARPS !! root_n = Some root_idx
    ∧ Spec.spelling false root_idx = root_n
    ∧ generate_scale root mode scale_modes use_flats
      = Ok (Spec.first_occurrences
              (Spec.spelling use_flats
                 <$> (if drops_last steps then removelast (Spec.tones root_idx steps)
                      else Spec.tones root_idx steps))).
Proof.
  intros Hmode Hroot.
  destruct (root_index _ _ _ Hroot) as (root_idx & Hidx & Hbound & Hspell).
  exists root_idx. split_and!; [lia|lia|done|done|].
  unfold generate_scale, dict_get.
  rewrite Hmode, Hroot, bind_Ok, Hidx, bind_Ok.
  rewrite <-Hspell, scale_loop_tones, bind_Ok by done. cbv zeta.
  rewrite unique_preserve_order_spec. do 2 f_equal.
  destruct (drops_last steps), use_flats; rewrite ?removelast_fmap; try done.
  - apply respell_flat, removelast_Forall, tones_bound.
  - apply respell_flat, tones_bound.
Qed.

Lemma tones_snoc root_idx steps :
  Spec.tones root_idx steps
  = (Spec.tone root_idx steps <$> seq 0 (length steps))
      ++ [Spec.tone root_idx steps (length steps)].
Proof. unfold Spec.tones. by rewrite seq_S, fmap_app. Qed.

Lemma tones_cons root_idx steps :
  0 ≤ root_idx < 12 →
  Spec.tones root_idx steps
  = root_idx :: (Spec.tone root_idx steps <$> seq 1 (length steps)).
Proof.
  intros Hr. unfold Spec.tones. rewrite <-cons_seq, fmap_cons. by rewrite tone_0.
Qed.

Lemma kept_head root_idx steps :
  0 ≤ root_idx < 12 →
  ∃ rest,
    (if drops_last steps then removelast (Spec.tones root_idx steps)
     else Spec.tones root_idx steps) = root_idx :: rest.
Proof.
  intros Hr. destruct (drops_last steps) eqn:Hdrop.
  - rewrite tones_snoc, removelast_last.
    destruct steps as [|step steps]; [done|]. simpl length.
    rewrite <-cons_seq, fmap_cons, tone_0 by done. eauto.
  - rewrite tones_cons by done. eauto.
Qed.
End results.
Section closed_patterns.
Implicit Types (steps : list Z) (root_idx : Z).

Ltac below n k Hk :=
  let rec go i :=
    lazymatch i with
    | O => exfalso; lia
    | S ?j => destruct (decide (k = Z.of_nat j)) as [->|?]; [|go j]
    end in
  go n.

Lemma first_occurrences_app (l k : list string) :
  Spec.first_occurrences (l ++ k)
  = Spec.first_occurrences l ++ filter (λ y, y ∉ l) (Spec.first_occurrences k).
Proof.
  induction l as [|x l IH]; simpl.
  - symmetry. apply filter_all. intros y _. apply not_elem_of_nil.
  - rewrite IH, filter_app. do 2 f_equal.
    rewrite list_filter_filter. apply list_filter_iff. intros y.
    rewrite not_elem_of_cons. tauto.
Qed.

Lemma first_occurrences_repeat (l : list string) x :
  x ∈ l → Spec.first_occurrences (l ++ [x]) = Spec.first_occurrences l.
Proof.
  intros Hx. rewrite first_occurrences_app. simpl.
  rewrite filter_cons_False by tauto. by rewrite app_nil_r.
Qed.

Lemma sum_take_nonneg steps : Forall (λ s, 0 < s) steps → ∀ i, 0 ≤ foldr Z.add 0 (take i steps).
Proof.
  induction 1 as [|s steps Hs _ IH]; intros [|i]; simpl; try lia.
  specialize (IH i). lia.
Qed.

Lemma sum_take_lt steps :
  Forall (λ s, 0 < s) steps →
  ∀ i j, (i < j ≤ length steps)%nat →
         foldr Z.add 0 (take i steps) < foldr Z.add 0 (take j steps).
Proof.
  induction 1 as [|s steps Hs Hsteps IH]; intros i j Hij; simpl in *; [lia|].
  destruct j as [|j]; [lia|]. destruct i as [|i]; simpl.
  - pose proof (sum_take_nonneg steps Hsteps j). lia.
  - specialize (IH i j). lia.
Qed.

Lemma tone_eq_sums root_idx steps i j :
  0 ≤ foldr Z.add 0 (take i steps) < foldr Z.add 0 (take j steps) →
  foldr Z.add 0 (take j steps) - foldr Z.add 0 (take i steps) < 12 →
  Spec.tone root_idx steps i ≠ Spec.tone root_idx steps j.
Proof.
  unfold Spec.tone. intros Hlt Hdiff Heq.
  pose proof (Z.div_mod (root_idx + foldr Z.add 0 (take i steps)) 12).
  pose proof (Z.div_mod (root_idx + foldr Z.add 0 (take j steps)) 12).
  lia.
Qed.

(** The tones of a pattern of positive steps that add up to 12: no two of
    the first are alike, and the last one is the root again. *)
Lemma closed_tones root_idx steps :
  0 ≤ root_idx < 12 →
  Forall (λ s, 0 < s) steps → foldr Z.add 0 steps = 12 →
  NoDup (Spec.tone root_idx steps <$> seq 0 (length steps))
  ∧ Spec.tone root_idx steps (length steps) = root_idx
  ∧ steps ≠ [].
Proof.
  intros Hr Hpos Hsum.
  assert (foldr Z.add 0 (take (length steps) steps) = 12) as Hfull.
  { by rewrite firstn_all. }
  split_and!.
  - apply NoDup_fmap_2_strong; [|apply NoDup_seq].
    intros i j [_ Hi]%elem_of_seq [_ Hj]%elem_of_seq Heq.
    destruct (decide (i = j)) as [|Hne]; [done|]. exfalso.
    assert (∀ a b, (a < b < length steps)%nat →
              Spec.tone root_idx steps a ≠ Spec.tone root_idx steps b) as Hdist.
    { intros a b Hab. apply tone_eq_sums.
      - pose proof (sum_take_nonneg steps Hpos a).
        pose proof (sum_take_lt steps Hpos a b). lia.
      - pose proof (sum_take_nonneg steps Hpos a).
        pose proof (sum_take_lt steps Hpos b (length steps)). lia. }
    destruct (decide (i < j)%nat).
    + apply (Hdist i j); [lia|done].
    + apply (Hdist j i); [lia|done].
  - unfold Spec.tone. rewrite Hfull.
    replace (root_idx + 12) with (root_idx + 1 * 12) by lia.
    rewrite Z_mod_plus_full. by apply Z.mod_small.
  - intros ->. done.
Qed.

Lemma generate_scale_closed_pattern root mode (scale_modes : gmap string (list Z))
    use_flats root_n steps :
  scale_modes !! mode = Some steps →
  normalize_note root false = Ok root_n →
  Forall (λ s, 0 < s) steps → foldr Z.add 0 steps = 12 →
  ∃ root_idx l,
    0 ≤ root_idx < 12
    ∧ Spec.spelling false root_idx = root_n
    ∧ generate_scale root mode scale_modes use_flats = Ok l
    ∧ l = (Spec.spelling use_flats <$> (Spec.tone root_idx steps <$> seq 0 (length steps)))
    ∧ NoDup l
    ∧ length l = length steps.
Proof.
  intros Hmode Hroot Hpos Hsum.
  destruct (generate_scale_tones _ _ _ use_flats _ _ Hmode Hroot)
    as (root_idx & Hb & _ & Hspell & Hgen).
  destruct (closed_tones root_idx steps Hb Hpos Hsum) as (Hnd & Hlast & Hne).
  set (firsts := Spec.tone root_idx steps <$> seq 0 (length steps)) in *.
  assert (NoDup (Spec.spelling use_flats <$> firsts)) as Hnames.
  { apply NoDup_fmap_2_strong; [|done].
    intros a b Ha Hb'. apply spelling_inj.
    - apply list_elem_of_fmap in Ha as (? & -> & _). apply tone_bound.
    - apply list_elem_of_fmap in Hb' as (? & -> & _). apply tone_bound. }
  exists root_idx, (Spec.spelling use_flats <$> firsts).
  split_and!; [lia|lia|done| |done|done|].
  - rewrite Hgen. f_equal. rewrite tones_snoc, removelast_last. fold firsts.
    destruct (drops_last steps).
    + by apply first_occurrences_NoDup_id.
    + rewrite fmap_app. simpl. rewrite Hlast.
      rewrite first_occurrences_repeat; [by apply first_occurrences_NoDup_id|].
      apply list_elem_of_fmap. exists root_idx. split; [done|].
      subst firsts. destruct steps as [|s steps']; [done|]. simpl length.
      rewrite <-cons_seq, fmap_cons, tone_0 by done. left.
  - subst firsts. by rewrite !length_fmap, length_seq.
Qed.

Lemma scale_modes_closed mode steps :
  SCALE_MODES !! mode = Some steps →
  Forall (λ s, 0 < s) steps ∧ foldr Z.add 0 steps = 12.
Proof.
  intros Hin%elem_of_list_to_map_2.
  match type of Hin with
  | _ ∈ ?table =>
      assert (Forall (λ p : string * list Z,
                Forall (λ s, 0 < s) p.2 ∧ foldr Z.add 0 p.2 = 12) table) as Htable
        by (apply (bool_decide_unpack _); vm_compute; exact I)
  end.
  by apply (proj1 (Forall_forall _ _) Htable) in Hin.
Qed.

Lemma normalize_of_normalized root use_flats root_n :
  normalize_note root use_flats = Ok root_n →
  normalize_note root_n false = normalize_note root false.
Proof.
  destruct use_flats.
  - intros Hflat. destruct (normalize_note root false) as [m|e] eqn:Hsharp.
    + destruct (proj1 (normalize_sharp_flat root) m Hsharp) as (i & Hi & Hidx & Htrue & _).
      rewrite Htrue in Hflat. injection Hflat as <-.
      apply note_index_sharps in Hidx as [_ Hl].
      rewrite <-(nth_lookup_Some _ _ "" _ Hl). fold (Spec.spelling false i).
      below 12%nat i Hi; by vm_compute.
    + rewrite (proj2 (normalize_sharp_flat root) e Hsharp) in Hflat. done.
  - intros Hsharp. rewrite Hsharp.
    apply (normalize_note_fixed false). by apply (normalize_note_range root false).
Qed.
End closed_patterns.
(** What [degrees_to_notes_text] returns. *)
Lemma degrees_result (text root : string) (use_flats : bool)
    (l : list string) :
  degrees_to_notes_text text root use_flats = Ok l →
  l ≠ []
  ∧ NoDup l
  ∧ Forall (λ n, n ∈ (if use_flats then CHROMATIC_FLATS else CHROMATIC_SHARPS)) l
  ∧ (length l ≤ 12)%nat
  ∧ (length l ≤ length (raw_tokens text))%nat.
Proof.
  intros Hok.
  destruct (decide (raw_tokens text = [])) as [Hnil|Hne].
  { unfold degrees_to_notes_text in Hok. by rewrite Hnil in Hok. }
  destruct (normalize_note root use_flats) as [root_n|e] eqn:Hroot.
  2: { unfold degrees_to_notes_text in Hok.
       by rewrite bool_decide_eq_false_2, Hroot in Hok by done. }
  destruct (tokens_parse_or_not (raw_tokens text))
    as [[ds Hds]|(good & bad & rest & ds & e & Hraw & Hgood & Hbad)].
  - destruct (degrees_resolved _ _ _ _ _ Hne Hroot Hds) as (root_idx & _ & _ & Hb & Hres).
    rewrite Hres in Hok. injection Hok as <-.
    rewrite list_fmap_compose.
    destruct (first_occurrences_names use_flats (Spec.degree_pitch root_idx <$> ds))
      as (Hnd & Hin & H12 & Hlen).
    { by apply Forall_fmap. }
    split_and!; [|done|done|done|].
    + destruct ds as [|d ds']; [|done].
      apply Forall2_length in Hds. by destruct (raw_tokens text).
    + rewrite length_fmap in Hlen. apply Forall2_length in Hds. lia.
  - destruct (root_index _ _ _ Hroot) as (root_idx & Hidx & _).
    unfold degrees_to_notes_text, dict_get in Hok.
    rewrite bool_decide_eq_false_2, Hroot, bind_Ok, Hidx, bind_Ok, Hraw in Hok by done.
    by rewrite (degrees_loop_first_error _ _ _ _ _ ds e Hgood Hbad) in Hok.
Qed.

(** When [degrees_to_notes_text] returns, the list is not empty, has no
    repetition, holds names of the chosen spelling only, and is no longer
    than 12 or than the number of tokens. *)
Theorem degrees_to_notes_text_result (text root : string) (use_flats : bool)
    (l : list string) :
  degrees_to_notes_text text root use_flats = Ok l →
  l ≠ []
  ∧ NoDup l
  ∧ Forall (λ n, n ∈ (if use_flats then CHROMATIC_FLATS else CHROMATIC_SHARPS)) l
  ∧ (length l ≤ 12)%nat
  ∧ (length l ≤ length (raw_tokens text))%nat.
Proof. apply degrees_result. Qed.

Lemma degrees_to_notes_text_result_witness :
  ["C"; "D#"; "G"] ≠ []
  ∧ NoDup ["C"; "D#"; "G"]
  ∧ Forall (λ n, n ∈ CHROMATIC_SHARPS) ["C"; "D#"; "G"]
  ∧ (length ["C"; "D#"; "G"] ≤ 12)%nat
  ∧ (length ["C"; "D#"; "G"] ≤ length (raw_tokens "1 b3 5 1"))%nat.
Proof.
  apply (degrees_to_notes_text_result "1 b3 5 1" "C" false). reflexivity.
Defined.

(** Degrees wrap by 7 and shifts by 12: two texts whose tokens parse to
    degrees that differ by multiples of 7 and to shifts that differ by
    multiples of 12 resolve alike over every root. *)
Theorem degrees_to_notes_text_wrap (text text' root : string) (use_flats : bool)
    (ds ds' : list (Z * Z)) :
  Forall2 (λ tok d, parse_degree_token tok = Ok d) (raw_tokens text) ds →
  Forall2 (λ tok d, parse_degree_token tok = Ok d) (raw_tokens text') ds' →
  Forall2 (λ d d', ∃ k j, d'.1 = d.1 + 7 * k ∧ d'.2 = d.2 + 12 * j) ds ds' →
  degrees_to_notes_text text' root use_flats = degrees_to_notes_text text root use_flats.
Proof.
  intros Hds Hds' Hwrap.
  assert (raw_tokens text = [] ↔ raw_tokens text' = []) as Hnil.
  { apply Forall2_length in Hds, Hds', Hwrap.
    destruct (raw_tokens text), (raw_tokens text'), ds, ds'; simpl in *; done. }
  unfold degrees_to_notes_text.
  destruct (decide (raw_tokens text = [])) as [He|Hne].
  { by rewrite !bool_decide_eq_true_2 by tauto. }
  rewrite !bool_decide_eq_false_2 by tauto.
  destruct (normalize_note root use_flats) as [root_n|e] eqn:Hroot; [|done].
  destruct (root_index _ _ _ Hroot) as (root_idx & Hidx & _).
  unfold dict_get. rewrite !bind_Ok, Hidx, !bind_Ok.
  rewrite (degrees_loop_spec use_flats root_idx _ ds Hds).
  rewrite (degrees_loop_spec use_flats root_idx _ ds' Hds').
  do 3 f_equal. clear Hds Hds' Hnil Hne.
  induction Hwrap as [|[d s] [d' s'] ds ds' (k & j & Hd & Hs) _ IH]; [done|].
  simpl in Hd, Hs. subst d' s'. rewrite !fmap_cons, IH. f_equal.
  unfold compose. by rewrite degree_pitch_wrap.
Qed.

Lemma degrees_to_notes_text_wrap_witness :
  degrees_to_notes_text "9 b14" "D" true = degrees_to_notes_text "2 b7" "D" true.
Proof.
  apply (degrees_to_notes_text_wrap "2 b7" "9 b14" "D" true [(2, 0); (7, -1)] [(9, 0); (14, -1)]).
  - change (raw_tokens "2 b7") with ["2"; "b7"]. repeat constructor.
  - change (raw_tokens "9 b14") with ["9"; "b14"]. repeat constructor.
  - constructor; [by exists 1, 0|]. constructor; [by exists 1, 0|]. constructor.
Defined.

(** What [generate_scale] returns. *)
Lemma scale_result (root mode : string) (scale_modes : gmap string (list Z))
    (use_flats : bool) (l : list string) :
  generate_scale root mode scale_modes use_flats = Ok l →
  (∃ root_n rest, normalize_note root use_flats = Ok root_n ∧ l = root_n :: rest)
  ∧ NoDup l
  ∧ Forall (λ n, n ∈ (if use_flats then CHROMATIC_FLATS else CHROMATIC_SHARPS)) l
  ∧ (length l ≤ 12)%nat.
Proof.
  intros Hok.
  destruct (scale_modes !! mode) as [steps|] eqn:Hmode.
  2: { unfold generate_scale in Hok. by rewrite Hmode in Hok. }
  destruct (normalize_note root false) as [root_n|e] eqn:Hroot.
  2: { unfold generate_scale in Hok. by rewrite Hmode, Hroot in Hok. }
  destruct (generate_scale_tones _ _ _ use_flats _ _ Hmode Hroot)
    as (root_idx & Hb & Hidx & Hspell & Hgen).
  assert (l = Spec.first_occurrences
                (Spec.spelling use_flats
                   <$> (if drops_last steps then removelast (Spec.tones root_idx steps)
                        else Spec.tones root_idx steps))) as -> by congruence.
  destruct (kept_head root_idx steps Hb) as [rest Hkept].
  destruct (first_occurrences_names use_flats
              (if drops_last steps then removelast (Spec.tones root_idx steps)
               else Spec.tones root_idx steps)) as (Hnd & Hin & H12 & _).
  { destruct (drops_last steps); [apply removelast_Forall|]; apply tones_bound. }
  split_and!; [|done..].
  rewrite Hkept. simpl. eexists _, _. split; [|done].
  destruct use_flats; [|by rewrite Hspell].
  destruct (proj1 (normalize_sharp_flat root) root_n Hroot) as (i & _ & Hi & Htrue & _).
  rewrite Htrue. do 2 f_equal. congruence.
Qed.

(** When [generate_scale] returns, whatever the table is, the list starts
    with the root in the chosen spelling, has no repetition, holds names of
    that spelling only, and has at most 12 names. *)
Theorem generate_scale_result (root mode : string) (scale_modes : gmap string (list Z))
    (use_flats : bool) (l : list string) :
  generate_scale root mode scale_modes use_flats = Ok l →
  (∃ root_n rest, normalize_note root use_flats = Ok root_n ∧ l = root_n :: rest)
  ∧ NoDup l
  ∧ Forall (λ n, n ∈ (if use_flats then CHROMATIC_FLATS else CHROMATIC_SHARPS)) l
  ∧ (length l ≤ 12)%nat.
Proof. apply scale_result. Qed.

Lemma generate_scale_result_witness :
  (∃ root_n rest, normalize_note "db" true = Ok root_n
                  ∧ ["Db"; "Eb"; "F"; "Ab"; "Bb"] = root_n :: rest)
  ∧ NoDup ["Db"; "Eb"; "F"; "Ab"; "Bb"]
  ∧ Forall (λ n, n ∈ CHROMATIC_FLATS) ["Db"; "Eb"; "F"; "Ab"; "Bb"]
  ∧ (length ["Db"; "Eb"; "F"; "Ab"; "Bb"] ≤ 12)%nat.
Proof.
  apply (generate_scale_result "db" "pentatonic_major" SCALE_MODES true). reflexivity.
Defined.

(** For a pattern of positive steps that add up to 12, in any table,
    [generate_scale] returns one name per step, no two alike: the tones
    that lie the sums of the first 0, 1, ... steps above the root.  The
    test on the number of steps plays no part for such a pattern. *)
Theorem generate_scale_closed (root mode : string) (scale_modes : gmap string (list Z))
    (use_flats : bool) (root_n : string) (steps : list Z) :
  scale_modes !! mode = Some steps →
  normalize_note root false = Ok root_n →
  Forall (λ s, 0 < s) steps → foldr Z.add 0 steps = 12 →
  ∃ root_idx l,
    0 ≤ root_idx < 12
    ∧ Spec.spelling false root_idx = root_n
    ∧ generate_scale root mode scale_modes use_flats = Ok l
    ∧ l = (Spec.spelling use_flats <$> (Spec.tone root_idx steps <$> seq 0 (length steps)))
    ∧ NoDup l
    ∧ length l = length steps.
Proof. apply generate_scale_closed_pattern. Qed.

Lemma generate_scale_closed_witness :
  ∃ root_idx l,
    0 ≤ root_idx < 12
    ∧ Spec.spelling false root_idx = "A"
    ∧ generate_scale "A" "nine" {["nine" := [1; 1; 1; 1; 1; 1; 1; 1; 4]]} false = Ok l
    ∧ l = (Spec.spelling false
             <$> (Spec.tone root_idx [1; 1; 1; 1; 1; 1; 1; 1; 4] <$> seq 0 9))
    ∧ NoDup l
    ∧ length l = 9%nat.
Proof.
  apply (generate_scale_closed "A" "nine" {["nine" := [1; 1; 1; 1; 1; 1; 1; 1; 4]]} false "A").
  - reflexivity.
  - reflexivity.
  - repeat constructor.
  - reflexivity.
Defined.

(** Every pattern of the table of [scales.py] has positive steps that add
    up to 12; so for every scale of the table and every root that
    normalises, [generate_scale] returns exactly as many names as the
    pattern has steps, no two alike. *)
Theorem scale_modes_note_count (root mode : string) (use_flats : bool)
    (root_n : string) (steps : list Z) :
  SCALE_MODES !! mode = Some steps →
  normalize_note root false = Ok root_n →
  Forall (λ s, 0 < s) steps
  ∧ foldr Z.add 0 steps = 12
  ∧ ∃ l, generate_scale root mode SCALE_MODES use_flats = Ok l
         ∧ NoDup l ∧ length l = length steps.
Proof.
  intros Hmode Hroot. destruct (scale_modes_closed _ _ Hmode) as [Hpos Hsum].
  split_and!; [done..|].
  destruct (generate_scale_closed_pattern _ _ _ use_flats _ _ Hmode Hroot Hpos Hsum)
    as (root_idx & l & _ & _ & Hgen & _ & Hnd & Hlen).
  eauto.
Qed.

Lemma scale_modes_note_count_witness :
  Forall (λ s, 0 < s) [1; 2; 1; 2; 1; 2; 3]
  ∧ foldr Z.add 0 [1; 2; 1; 2; 1; 2; 3] = 12
  ∧ ∃ l, generate_scale "F#" "tritone_scale" SCALE_MODES true = Ok l
         ∧ NoDup l ∧ length l = 7%nat.
Proof.
  apply (scale_modes_note_count "F#" "tritone_scale" true "F#" [1; 2; 1; 2; 1; 2; 3]).
  - vm_compute. reflexivity.
  - reflexivity.
Defined.

(** A root that was normalised first, with either spelling, generates the
    scale the root itself generates: this is how [_compute_notes] calls
    [generate_scale]. *)
Theorem generate_scale_normalized_root (root mode : string)
    (scale_modes : gmap string (list Z)) (use_flats use_flats' : bool) (root_n : string) :
  normalize_note root use_flats' = Ok root_n →
  generate_scale root_n mode scale_modes use_flats
  = generate_scale root mode scale_modes use_flats.
Proof.
  intros Hroot. unfold generate_scale.
  by rewrite (normalize_of_normalized _ _ _ Hroot).
Qed.

Lemma generate_scale_normalized_root_witness :
  generate_scale "Bb" "dorian" SCALE_MODES true
  = generate_scale " b b" "dorian" SCALE_MODES true.
Proof.
  apply (generate_scale_normalized_root " b b" "dorian" SCALE_MODES true true "Bb").
  reflexivity.
Defined.
(** ** Inlays and the renderer *)

Section inlays.
Implicit Types (n m f : Z) (l : list Z).

Lemma filter_id {A} (P : A → Prop) `{∀ x, Decision (P x)} (k : list A) :
  (∀ x, x ∈ k → P x) → filter P k = k.
Proof.
  induction k as [|y r IH]; intros Hall; [done|].
  rewrite filter_cons_True by (apply Hall; left).
  f_equal. apply IH. intros x Hx. apply Hall. by right.
Qed.

Lemma filter_le_above n l :
  Forall (Z.lt n) l → filter (λ f, f ≤ n) l = [].
Proof.
  induction 1 as [|y l Hy _ IH]; [done|].
  rewrite filter_cons_False by lia. done.
Qed.

(** On an increasing list, keeping what is at most [n] keeps a prefix. *)
Lemma filter_le_prefix n l :
  StronglySorted Z.lt l → filter (λ f, f ≤ n) l `prefix_of` l.
Proof.
  induction 1 as [|x l _ IH Hx]; [done|].
  destruct (decide (x ≤ n)).
  - rewrite filter_cons_True by done. by apply prefix_cons.
  - rewrite filter_cons_False by done.
    rewrite filter_le_above; [apply prefix_nil|].
    eapply Forall_impl; [done|]. intros y Hy. lia.
Qed.

Lemma filter_le_sorted n l :
  StronglySorted Z.lt l → StronglySorted Z.lt (filter (λ f, f ≤ n) l).
Proof.
  induction 1 as [|x l _ IH Hx]; [constructor|].
  destruct (decide (x ≤ n)).
  - rewrite filter_cons_True by done. constructor; [done|].
    apply Forall_forall. intros y [_ Hy]%list_elem_of_filter.
    by apply (proj1 (Forall_forall _ _) Hx).
  - by rewrite filter_cons_False by done.
Qed.

Lemma inlay_base_sorted : StronglySorted Z.lt INLAY_BASE.
Proof. repeat constructor. Qed.
End inlays.

(** [get_inlay_frets] returns the start of the list of marked frets, up to
    the last one that is at most the fret count: every fret [f] it returns
    has [3 ≤ f ≤ num_frets], so [f - 1] and [f] are frets of the board and
    the fret 0 that [draw] tests for never comes; a larger count extends
    the list at its end only. *)
Theorem get_inlay_frets_prefix (num_frets : Z) :
  get_inlay_frets num_frets `prefix_of` INLAY_BASE
  ∧ Forall (λ f, 3 ≤ f ≤ num_frets ∧ f ≤ 24) (get_inlay_frets num_frets)
  ∧ (0 ∉ get_inlay_frets num_frets)
  ∧ (∀ m, num_frets ≤ m → get_inlay_frets num_frets `prefix_of` get_inlay_frets m)
  ∧ (24 ≤ num_frets → get_inlay_frets num_frets = INLAY_BASE)
  ∧ (num_frets < 3 → get_inlay_frets num_frets = []).
Proof.
  assert (Forall (λ f, 3 ≤ f ≤ num_frets ∧ f ≤ 24) (get_inlay_frets num_frets)) as Hb.
  { apply Forall_forall. intros f [Hf Hin]%list_elem_of_filter.
    assert (Forall (λ f, 3 ≤ f ≤ 24) INLAY_BASE) as Hbase
      by (apply (bool_decide_unpack _); vm_compute; exact I).
    apply (proj1 (Forall_forall _ _) Hbase) in Hin. lia. }
  assert (Forall (λ f, 3 ≤ f ≤ 24) INLAY_BASE) as Hbase
    by (apply (bool_decide_unpack _); vm_compute; exact I).
  split_and!.
  - apply filter_le_prefix, inlay_base_sorted.
  - done.
  - intros Hin. apply (proj1 (Forall_forall _ _) Hb) in Hin. lia.
  - intros m Hm. unfold get_inlay_frets.
    replace (filter (λ f, f ≤ num_frets) INLAY_BASE)
      with (filter (λ f, f ≤ num_frets) (filter (λ f, f ≤ m) INLAY_BASE)).
    + apply filter_le_prefix, filter_le_sorted, inlay_base_sorted.
    + rewrite list_filter_filter. apply list_filter_iff. intros f. lia.
  - intros H24. apply filter_id. intros f Hin.
    apply (proj1 (Forall_forall _ _) Hbase) in Hin. lia.
  - intros H3. apply filter_le_above.
    eapply Forall_impl; [exact Hbase|]. intros f Hf. simpl in Hf. lia.
Qed.

Lemma get_inlay_frets_prefix_witness :
  get_inlay_frets 11 `prefix_of` get_inlay_frets 12
  ∧ get_inlay_frets 24 = INLAY_BASE
  ∧ get_inlay_frets 2 = [].
Proof.
  split_and!.
  - apply (proj1 (proj2 (proj2 (proj2 (get_inlay_frets_prefix 11))))). lia.
  - apply (proj1 (proj2 (proj2 (proj2 (proj2 (get_inlay_frets_prefix 24)))))). lia.
  - apply (proj2 (proj2 (proj2 (proj2 (proj2 (get_inlay_frets_prefix 2)))))). lia.
Defined.

(** Whatever fret count and tuning it is given, a renderer has between 1
    and 24 frets, leaves a count in that range as it is, and has a tuning
    that is not empty; so the fret 1 that [draw] reads exists, and so do
    the frets [f - 1] and [f] of every inlay. *)
Theorem new_renderer_in_range (n : Z) (t : option (list string)) :
  1 ≤ num_frets (new_renderer n t) ≤ 24
  ∧ (1 ≤ n ≤ 24 → num_frets (new_renderer n t) = n)
  ∧ tuning (new_renderer n t) ≠ []
  ∧ (t = None ∨ t = Some [] → tuning (new_renderer n t) = DEFAULT_TUNING)
  ∧ Forall (λ f, 0 ≤ f - 1 ∧ f ≤ num_frets (new_renderer n t))
      (get_inlay_frets (num_frets (new_renderer n t))).
Proof.
  split_and!.
  - simpl. lia.
  - simpl. lia.
  - simpl. lia.
  - by destruct t as [[|x l]|].
  - by intros [->| ->].
  - apply Forall_forall. intros f [Hf Hin]%list_elem_of_filter.
    assert (Forall (λ f, 3 ≤ f ≤ 24) INLAY_BASE) as Hbase
      by (apply (bool_decide_unpack _); vm_compute; exact I).
    apply (proj1 (Forall_forall _ _) Hbase) in Hin. lia.
Qed.

Lemma new_renderer_in_range_witness :
  num_frets (new_renderer 12 None) = 12
  ∧ tuning (new_renderer 12 None) = DEFAULT_TUNING.
Proof.
  split.
  - apply (proj1 (proj2 (new_renderer_in_range 12 None))). lia.
  - apply (proj1 (proj2 (proj2 (proj2 (new_renderer_in_range 12 None))))). by left.
Defined.
(** ** Note markers *)

Section markers.
Implicit Types (use_flats : bool) (scale_notes : list string) (root : string)
  (st : list marker * list marker).

Lemma fret_loop_spec scale_notes root si (cells : list (Z * string)) : ∀ st,
  fret_loop (list_to_set scale_notes) root si cells st
  = (st.1 ++ filter (λ m : marker, m.2 ∈ scale_notes ∧ m.2 = root)
               ((λ c, (si, c.1, c.2)) <$> cells),
     st.2 ++ filter (λ m : marker, m.2 ∈ scale_notes ∧ m.2 ≠ root)
               ((λ c, (si, c.1, c.2)) <$> cells)).
Proof.
  induction cells as [|[f name] cells IH]; intros [roots norms].
  - simpl. by rewrite !app_nil_r.
  - cbn [fret_loop fst snd]. rewrite fmap_cons. destruct (decide (name ∉ list_to_set scale_notes)) as [Hout|Hin].
    + rewrite elem_of_list_to_set in Hout.
      rewrite IH, !filter_cons_False by (simpl; tauto). done.
    + apply dec_stable in Hin. rewrite elem_of_list_to_set in Hin.
      destruct (decide (name = root)) as [Hroot|Hroot].
      * rewrite IH, filter_cons_True, filter_cons_False by (simpl; tauto).
        simpl. by rewrite <-app_assoc.
      * rewrite IH, filter_cons_False, filter_cons_True by (simpl; tauto).
        simpl. by rewrite <-app_assoc.
Qed.

Lemma zip_fmap_diag {A B} (g : A → B) (l : list A) :
  zip l (g <$> l) = (λ x, (x, g x)) <$> l.
Proof. induction l as [|x l IH]; [done|]. simpl. f_equal. exact IH. Qed.

Lemma string_names use_flats open_idx (frets : list Z) :
  comprehension
    (λ f, list_get (if use_flats then CHROMATIC_FLATS else CHROMATIC_SHARPS)
            ((open_idx + f) `mod` 12)) frets
  = Ok (Markers.sounded use_flats open_idx <$> frets).
Proof.
  apply comprehension_fmap, Forall_forall. intros f _.
  apply chromatic_get. by apply Z.mod_pos_bound.
Qed.

Lemma string_loop_spec use_flats num_frets scale_notes root
    (strings : list (nat * string)) (sidx : list (nat * Z)) :
  Forall2 (λ s p, s.1 = p.1
                  ∧ (if use_flats then NOTE_TO_INDEX_FLATS else NOTE_TO_INDEX_SHARPS) !! s.2
                    = Some p.2) strings sidx →
  ∀ st,
    string_loop (if use_flats then CHROMATIC_FLATS else CHROMATIC_SHARPS)
      (if use_flats then NOTE_TO_INDEX_FLATS else NOTE_TO_INDEX_SHARPS)
      (list_to_set scale_notes) root (seqZ 0 (num_frets + 1)) strings st
    = Ok (st.1 ++ filter (λ m : marker, m.2 ∈ scale_notes ∧ m.2 = root)
                    (Markers.board use_flats num_frets sidx),
          st.2 ++ filter (λ m : marker, m.2 ∈ scale_notes ∧ m.2 ≠ root)
                    (Markers.board use_flats num_frets sidx)).
Proof.
  induction 1 as [|[si open_note] [si' idx] strings sidx [Hsi Hidx] _ IH];
    intros [roots norms].
  - simpl. by rewrite !app_nil_r.
  - simpl in Hsi, Hidx. subst si'. cbn [string_loop]. unfold dict_get.
    rewrite Hidx, bind_Ok, string_names, bind_Ok, fret_loop_spec, IH.
    cbn [fst snd]. unfold Markers.board. rewrite bind_cons, !filter_app, <-!app_assoc.
    rewrite zip_fmap_diag, <-list_fmap_compose. done.
Qed.

Lemma strings_indexed (R : string → Z → Prop) (tuning : list string) (idxs : list Z) :
  Forall2 R tuning idxs →
  ∀ k, Forall2 (λ (s : nat * string) (p : nat * Z), s.1 = p.1 ∧ R s.2 p.2)
         (imap (λ si open_note, ((k + si)%nat, open_note)) tuning)
         (imap (λ si idx, ((k + si)%nat, idx)) idxs).
Proof.
  induction 1 as [|o i tuning idxs Hoi _ IH]; intros k; [constructor|].
  rewrite !imap_cons. constructor; [done|].
  rewrite (imap_ext _ (λ si o, ((S k + si)%nat, o))) by (intros; simpl; f_equal; lia).
  rewrite (imap_ext ((λ si idx, ((k + si)%nat, idx)) ∘ S) (λ si i, ((S k + si)%nat, i)))
    by (intros; simpl; f_equal; lia).
  apply IH.
Qed.

Lemma note_markers_cells tuning (idxs : list Z) num_frets scale_notes root use_flats :
  Forall2 (λ open_note idx,
             (if use_flats then NOTE_TO_INDEX_FLATS else NOTE_TO_INDEX_SHARPS) !! open_note
             = Some idx) tuning idxs →
  note_markers tuning num_frets scale_notes root use_flats
  = Ok (filter (λ m : marker, m.2 ∈ scale_notes ∧ m.2 = root)
          (Markers.board use_flats num_frets (Markers.strings idxs)),
        filter (λ m : marker, m.2 ∈ scale_notes ∧ m.2 ≠ root)
          (Markers.board use_flats num_frets (Markers.strings idxs))).
Proof.
  intros Hidx. unfold note_markers, Markers.strings.
  by rewrite (string_loop_spec use_flats num_frets scale_notes root _ _
                (strings_indexed _ _ _ Hidx 0%nat)).
Qed.

Lemma elem_of_board use_flats num_frets (idxs : list Z) (si : nat) (fret : Z) (name : string) :
  (si, fret, name) ∈ Markers.board use_flats num_frets (Markers.strings idxs)
  ↔ ∃ idx, idxs !! si = Some idx ∧ 0 ≤ fret ≤ num_frets
           ∧ name = Markers.sounded use_flats idx fret.
Proof.
  unfold Markers.board, Markers.strings. rewrite list_elem_of_bind. split.
  - intros ([si' idx] & Hcell & Hstr). simpl in Hcell.
    apply elem_of_lookup_imap in Hstr as (i & x & [= -> ->] & Hl).
    apply list_elem_of_fmap in Hcell as (f & [= -> ->] & Hf%elem_of_seqZ).
    exists x. split_and!; [done|lia|lia|done].
  - intros (idx & Hl & Hf & ->). exists (si, idx). split.
    + simpl. apply list_elem_of_fmap. exists fret. split; [done|].
      apply elem_of_seqZ. lia.
    + apply elem_of_lookup_imap. eauto.
Qed.

End markers.
(** For a tuning whose open notes have indices in the table of the chosen
    spelling, the marker loop returns the cells of the board, string by
    string and fret by fret from the open string to the last fret, whose
    sounded name is one of the scale notes: those that sound the root as
    root markers, the others as the other markers. *)
Theorem note_markers_board (tuning : list string) (idxs : list Z) (num_frets : Z)
    (scale_notes : list string) (root : string) (use_flats : bool) :
  Forall2 (λ open_note idx,
             (if use_flats then NOTE_TO_INDEX_FLATS else NOTE_TO_INDEX_SHARPS) !! open_note
             = Some idx) tuning idxs →
  note_markers tuning num_frets scale_notes root use_flats
  = Ok (filter (λ m : marker, m.2 ∈ scale_notes ∧ m.2 = root)
          (Markers.board use_flats num_frets (Markers.strings idxs)),
        filter (λ m : marker, m.2 ∈ scale_notes ∧ m.2 ≠ root)
          (Markers.board use_flats num_frets (Markers.strings idxs))).
Proof. apply note_markers_cells. Qed.

Lemma note_markers_board_witness :
  note_markers ["E"; "A"] 3 ["A"; "C"] "A" false
  = Ok (filter (λ m : marker, m.2 ∈ ["A"; "C"] ∧ m.2 = "A")
          (Markers.board false 3 (Markers.strings [4; 9])),
        filter (λ m : marker, m.2 ∈ ["A"; "C"] ∧ m.2 ≠ "A")
          (Markers.board false 3 (Markers.strings [4; 9]))).
Proof.
  apply (note_markers_board ["E"; "A"] [4; 9] 3 ["A"; "C"] "A" false).
  repeat constructor.
Defined.

(** A cell of the board gets a marker exactly when the name sounded there,
    the name at index (open index + fret) mod 12, is one of the scale notes;
    the marker is a root marker exactly when that name is the root, and no
    cell gets both kinds. *)
Theorem note_markers_marked (tuning : list string) (idxs : list Z) (num_frets : Z)
    (scale_notes : list string) (root : string) (use_flats : bool)
    (roots norms : list marker) :
  Forall2 (λ open_note idx,
             (if use_flats then NOTE_TO_INDEX_FLATS else NOTE_TO_INDEX_SHARPS) !! open_note
             = Some idx) tuning idxs →
  note_markers tuning num_frets scale_notes root use_flats = Ok (roots, norms) →
  ∀ (si : nat) (fret : Z) (name : string),
    ((si, fret, name) ∈ roots ↔
       (∃ idx, idxs !! si = Some idx ∧ 0 ≤ fret ≤ num_frets
               ∧ name = Spec.spelling use_flats ((idx + fret) `mod` 12))
       ∧ name ∈ scale_notes ∧ name = root)
    ∧ ((si, fret, name) ∈ norms ↔
         (∃ idx, idxs !! si = Some idx ∧ 0 ≤ fret ≤ num_frets
                 ∧ name = Spec.spelling use_flats ((idx + fret) `mod` 12))
         ∧ name ∈ scale_notes ∧ name ≠ root)
    ∧ ¬ ((si, fret, name) ∈ roots ∧ (si, fret, name) ∈ norms).
Proof.
  intros Hidx Hok si fret name.
  rewrite (note_markers_cells _ _ _ _ _ _ Hidx) in Hok. injection Hok as <- <-.
  rewrite !list_elem_of_filter, !elem_of_board. simpl. unfold Markers.sounded.
  split_and!; tauto.
Qed.

Lemma note_markers_marked_witness :
  ((1%nat, 3, "C") ∈ [(1%nat, 0, "A")] ↔
     (∃ idx, [4; 9] !! 1%nat = Some idx ∧ 0 ≤ 3 ≤ 3
             ∧ "C" = Spec.spelling false ((idx + 3) `mod` 12))
     ∧ "C" ∈ ["A"; "C"] ∧ "C" = "A")
  ∧ ((1%nat, 3, "C") ∈ [(1%nat, 3, "C")] ↔
       (∃ idx, [4; 9] !! 1%nat = Some idx ∧ 0 ≤ 3 ≤ 3
               ∧ "C" = Spec.spelling false ((idx + 3) `mod` 12))
       ∧ "C" ∈ ["A"; "C"] ∧ "C" ≠ "A")
  ∧ ¬ ((1%nat, 3, "C") ∈ [(1%nat, 0, "A")] ∧ (1%nat, 3, "C") ∈ [(1%nat, 3, "C")]).
Proof.
  apply (note_markers_marked ["E"; "A"] [4; 9] 3 ["A"; "C"] "A" false).
  - repeat constructor.
  - reflexivity.
Defined.

(** Twelve frets up a string the same name sounds, so a cell and the cell
    an octave above it on the same string are marked alike. *)
Theorem note_markers_octave (tuning : list string) (idxs : list Z) (num_frets : Z)
    (scale_notes : list string) (root : string) (use_flats : bool)
    (roots norms : list marker) (si : nat) (fret : Z) (name : string) :
  Forall2 (λ open_note idx,
             (if use_flats then NOTE_TO_INDEX_FLATS else NOTE_TO_INDEX_SHARPS) !! open_note
             = Some idx) tuning idxs →
  note_markers tuning num_frets scale_notes root use_flats = Ok (roots, norms) →
  0 ≤ fret → fret + 12 ≤ num_frets →
  ((si, fret, name) ∈ roots ↔ (si, fret + 12, name) ∈ roots)
  ∧ ((si, fret, name) ∈ norms ↔ (si, fret + 12, name) ∈ norms).
Proof.
  intros Hidx Hok H0 H12.
  rewrite (note_markers_cells _ _ _ _ _ _ Hidx) in Hok. injection Hok as <- <-.
  rewrite !list_elem_of_filter, !elem_of_board. simpl. unfold Markers.sounded.
  assert (∀ idx, (idx + (fret + 12)) `mod` 12 = (idx + fret) `mod` 12) as Hoct.
  { intros idx. replace (idx + (fret + 12)) with (idx + fret + 1 * 12) by lia.
    apply Z_mod_plus_full. }
  split; (split; intros [? (idx & ? & ? & ?)]; (split; [done|]); exists idx;
          rewrite ?Hoct in *; split_and!; (done || lia)).
Qed.

Lemma note_markers_octave_witness :
  ((0%nat, 1, "F") ∈ [(0%nat, 1, "F"); (0%nat, 13, "F")]
   ↔ (0%nat, 1 + 12, "F") ∈ [(0%nat, 1, "F"); (0%nat, 13, "F")])
  ∧ ((0%nat, 1, "F") ∈ [] ↔ (0%nat, 1 + 12, "F") ∈ []).
Proof.
  apply (note_markers_octave ["E"] [4] 13 ["F"] "F" false).
  - repeat constructor.
  - reflexivity.
  - lia.
  - lia.
Defined.

(** An open note that is not a name of the chosen spelling makes the
    marker loop fail with [KeyError], at the first such string. *)
Theorem note_markers_key_error (good : list string) (idxs : list Z) (bad : string)
    (rest : list string) (num_frets : Z) (scale_notes : list string) (root : string)
    (use_flats : bool) :
  Forall2 (λ open_note idx,
             (if use_flats then NOTE_TO_INDEX_FLATS else NOTE_TO_INDEX_SHARPS) !! open_note
             = Some idx) good idxs →
  bad ∉ (if use_flats then CHROMATIC_FLATS else CHROMATIC_SHARPS) →
  note_markers (good ++ bad :: rest) num_frets scale_notes root use_flats = Raise KeyError.
Proof.
  intros Hgood Hbad.
  assert ((if use_flats then NOTE_TO_INDEX_FLATS else NOTE_TO_INDEX_SHARPS) !! bad = None)
    as Hnone.
  { destruct ((if use_flats then NOTE_TO_INDEX_FLATS else NOTE_TO_INDEX_SHARPS) !! bad)
      as [i|] eqn:Hi; [|done]. exfalso. apply Hbad. destruct use_flats.
    - apply note_index_flats in Hi as [_ Hl]. by eapply list_elem_of_lookup_2.
    - apply note_index_sharps in Hi as [_ Hl]. by eapply list_elem_of_lookup_2. }
  unfold note_markers. generalize (@nil marker, @nil marker).
  assert (∀ k, imap (λ si o, ((k + si)%nat, o)) (good ++ bad :: rest)
             = imap (λ si o, ((k + si)%nat, o)) good
               ++ ((k + length good)%nat, bad)
                  :: imap (λ si o, ((k + length good + S si)%nat, o)) rest) as Himap.
  { intros k. rewrite imap_app, imap_cons. do 2 f_equal; [f_equal; lia|].
    apply imap_ext. intros; simpl; f_equal; lia. }
  specialize (Himap 0%nat). simpl in Himap. rewrite Himap. clear Himap.
  pose proof (strings_indexed _ _ _ Hgood 0%nat) as Hstr. simpl in Hstr.
  revert Hstr. generalize (imap (λ si o, (si, o)) good).
  generalize (imap (λ (si : nat) (idx : Z), (si, idx)) idxs).
  intros sidx strs Hstr.
  induction Hstr as [|[si o] [si' i] strs sidx [_ Ho] _ IH]; intros st.
  - simpl. unfold dict_get. by rewrite Hnone.
  - simpl in Ho. cbn [app string_loop]. unfold dict_get.
    rewrite Ho, bind_Ok, string_names, bind_Ok. apply IH.
Qed.

Lemma note_markers_key_error_witness :
  note_markers (["E"] ++ "A#" :: ["D"]) 12 ["C"] "C" true = Raise KeyError.
Proof.
  apply (note_markers_key_error ["E"] [4] "A#" ["D"] 12 ["C"] "C" true).
  - repeat constructor.
  - apply (bool_decide_unpack _). vm_compute. exact I.
Defined.


(** ** [fretboard_plot.py] *)

Section plot.
Implicit Types (root mode : string) (use_flats : bool) (steps : list Z).

Lemma plot_scale_modes_closed mode steps :
  Plot.SCALE_MODES !! mode = Some steps →
  Forall (λ s, 0 < s) steps ∧ foldr Z.add 0 steps = 12.
Proof.
  intros Hin%elem_of_list_to_map_2.
  match type of Hin with
  | _ ∈ ?table =>
      assert (Forall (λ p : string * list Z,
                Forall (λ s, 0 < s) p.2 ∧ foldr Z.add 0 p.2 = 12) table) as Htable
        by (apply (bool_decide_unpack _); vm_compute; exact I)
  end.
  by apply (proj1 (Forall_forall _ _) Htable) in Hin.
Qed.

(** The list [generate_scale] of [fretboard_plot.py] returns. *)
Lemma plot_generate_scale_tones root mode use_flats root_n steps :
  Plot.SCALE_MODES !! mode = Some steps →
  normalize_note root false = Ok root_n →
  ∃ root_idx,
    0 ≤ root_idx < 12
    ∧ NOTE_TO_INDEX_SHARPS !! root_n = Some root_idx
    ∧ Plot.generate_scale root mode use_flats
      = Ok (Spec.spelling use_flats
              <$> (if Str.startswith "pentatonic" mode
                   then removelast (Spec.tones root_idx steps)
                   else Spec.tones root_idx steps)).
Proof.
  intros Hmode Hroot.
  destruct (root_index _ _ _ Hroot) as (root_idx & Hidx & Hbound & Hspell).
  exists root_idx. split_and!; [lia|lia|done|].
  unfold Plot.generate_scale, dict_get.
  rewrite Hmode, Hroot, bind_Ok, Hidx, bind_Ok.
  rewrite <-Hspell, scale_loop_tones, bind_Ok by done. cbv zeta. f_equal.
  destruct (Str.startswith "pentatonic" mode), use_flats;
    rewrite ?removelast_fmap; try done.
  - apply respell_flat, removelast_Forall, tones_bound.
  - apply respell_flat, tones_bound.
Qed.

Lemma normalize_spelled root use_flats root_n root_idx :
  normalize_note root false = Ok root_n →
  NOTE_TO_INDEX_SHARPS !! root_n = Some root_idx →
  normalize_note root use_flats = Ok (Spec.spelling use_flats root_idx).
Proof.
  intros Hroot Hidx. destruct use_flats.
  - destruct (proj1 (normalize_sharp_flat root) root_n Hroot) as (i & _ & Hi & Htrue & _).
    rewrite Htrue. do 2 f_equal. congruence.
  - apply note_index_sharps in Hidx as [_ Hl].
    unfold Spec.spelling. by rewrite (nth_lookup_Some _ _ _ _ Hl).
Qed.

Lemma comprehension_total {A B} (f : A → result B) (xs : list A) :
  Forall (λ x, ∃ y, f x = Ok y) xs → ∃ ys, comprehension f xs = Ok ys.
Proof.
  induction 1 as [|x xs [y Hy] _ [ys IH]]; [by exists []|].
  exists (y :: ys). simpl. by rewrite Hy, bind_Ok, IH.
Qed.

Lemma names_of_notes text use_flats (ns : list string) :
  parse_notes_text text use_flats = Ok ns →
  Forall (λ n, n ∈ (if use_flats then CHROMATIC_FLATS else CHROMATIC_SHARPS)) ns.
Proof.
  intros Hns%comprehension_Forall2.
  induction Hns as [|tok n toks ns Hn _ IH]; constructor; [|done].
  by eapply normalize_note_range.
Qed.
End plot.

(** On the scales of the table of [fretboard_plot.py], the two versions of
    [generate_scale] name the same notes in the same order: the one of
    [fretboard_core.py] returns the list the one of [fretboard_plot.py]
    returns, with its repetitions dropped, and fails when that one fails. *)
Theorem plot_generate_scale_core (root mode : string) (use_flats : bool) (steps : list Z) :
  Plot.SCALE_MODES !! mode = Some steps →
  (∀ l, Plot.generate_scale root mode use_flats = Ok l →
        generate_scale root mode Plot.SCALE_MODES use_flats = Ok (unique_preserve_order l))
  ∧ (∀ e, Plot.generate_scale root mode use_flats = Raise e →
          generate_scale root mode Plot.SCALE_MODES use_flats = Raise e).
Proof.
  intros Hmode. destruct (plot_scale_modes_closed _ _ Hmode) as [Hpos Hsum].
  destruct (normalize_note root false) as [root_n|e] eqn:Hroot.
  - destruct (generate_scale_closed_pattern _ _ _ use_flats _ _ Hmode Hroot Hpos Hsum)
      as (root_idx & l & Hb & Hspell & Hgen & -> & Hnd & _).
    destruct (plot_generate_scale_tones _ _ use_flats _ _ Hmode Hroot)
      as (root_idx' & _ & Hidx' & Hplot).
    assert (root_idx' = root_idx) as ->.
    { destruct (root_index _ _ _ Hroot) as (i & Hi & _ & Hs). simpl in Hi.
      apply (spelling_inj false); [by apply (note_index_sharps root_n)|done|].
      apply note_index_sharps in Hidx' as [_ Hl].
      unfold Spec.spelling at 1. by rewrite (nth_lookup_Some _ _ _ _ Hl). }
    rewrite Hplot, Hgen. split; [|done]. intros l Hl.
    rewrite tones_snoc, removelast_last in Hl.
    destruct (closed_tones root_idx steps Hb Hpos Hsum) as (_ & Hlast & Hne).
    f_equal. rewrite unique_preserve_order_spec.
    destruct (Str.startswith "pentatonic" mode);
      match type of Hl with Ok ?x = Ok l => assert (l = x) as -> by congruence end.
    + symmetry. by apply first_occurrences_NoDup_id.
    + rewrite fmap_app. simpl. rewrite Hlast.
      rewrite first_occurrences_repeat; [symmetry; by apply first_occurrences_NoDup_id|].
      apply list_elem_of_fmap. exists root_idx. split; [done|].
      destruct steps as [|s steps']; [done|]. simpl length.
      rewrite <-cons_seq, fmap_cons, tone_0 by done. left.
  - unfold Plot.generate_scale, generate_scale. rewrite Hmode, Hroot. by split.
Qed.

Lemma plot_generate_scale_core_witness :
  generate_scale "C" "major" Plot.SCALE_MODES false
  = Ok (unique_preserve_order ["C"; "D"; "E"; "F"; "G"; "A"; "B"; "C"]).
Proof.
  apply (proj1 (plot_generate_scale_core "C" "major" false [2; 2; 1; 2; 2; 2; 1] eq_refl)).
  reflexivity.
Defined.

(** [generate_scale] of [fretboard_plot.py] keeps the octave: for a scale
    of its table whose name does not start with pentatonic it returns one
    name more than the pattern has steps, the last one being the root
    again, so the list has a repetition; for the pentatonic scales it
    returns one name per step, no two alike.  In both cases the list
    starts with the root in the chosen spelling. *)
Theorem plot_generate_scale_octave (root mode : string) (use_flats : bool)
    (steps : list Z) (l : list string) :
  Plot.SCALE_MODES !! mode = Some steps →
  Plot.generate_scale root mode use_flats = Ok l →
  ∃ root_n,
    normalize_note root use_flats = Ok root_n
    ∧ head l = Some root_n
    ∧ (Str.startswith "pentatonic" mode = false →
       length l = S (length steps) ∧ last l = Some root_n ∧ ¬ NoDup l)
    ∧ (Str.startswith "pentatonic" mode = true →
       length l = length steps ∧ NoDup l).
Proof.
  intros Hmode Hok. destruct (plot_scale_modes_closed _ _ Hmode) as [Hpos Hsum].
  destruct (normalize_note root false) as [root_n|e] eqn:Hroot.
  2: { unfold Plot.generate_scale in Hok. by rewrite Hmode, Hroot in Hok. }
  destruct (plot_generate_scale_tones _ _ use_flats _ _ Hmode Hroot)
    as (root_idx & Hb & Hidx & Hplot).
  rewrite Hplot in Hok.
  match type of Hok with Ok ?x = Ok l => assert (x = l) as Hl by congruence end.
  clear Hok.
  destruct (closed_tones root_idx steps Hb Hpos Hsum) as (Hnd & Hlast & Hne).
  exists (Spec.spelling use_flats root_idx).
  assert (∃ rest, Spec.tone root_idx steps <$> seq 0 (length steps) = root_idx :: rest)
    as [rest Hfirsts].
  { destruct steps as [|s steps']; [done|]. simpl length.
    rewrite <-cons_seq, fmap_cons, tone_0 by done. eauto. }
  rewrite tones_snoc, removelast_last, Hlast in Hl.
  split_and!.
  - by eapply normalize_spelled.
  - subst l. destruct (Str.startswith "pentatonic" mode); by rewrite ?fmap_app, Hfirsts.
  - intros Hpent. rewrite Hpent in Hl. subst l. rewrite fmap_app.
    change (Spec.spelling use_flats <$> [root_idx]) with [Spec.spelling use_flats root_idx].
    split_and!.
    + rewrite length_app, !length_fmap, length_seq. simpl. lia.
    + by rewrite last_snoc.
    + rewrite Hfirsts. simpl. intros Hdup%NoDup_cons_1_1. apply Hdup.
      apply elem_of_app. right. by left.
  - intros Hpent. rewrite Hpent in Hl. subst l. split.
    + by rewrite !length_fmap, length_seq.
    + apply NoDup_fmap_2_strong; [|done].
      intros a b Ha Hb'. apply spelling_inj.
      * apply list_elem_of_fmap in Ha as (? & -> & _). apply tone_bound.
      * apply list_elem_of_fmap in Hb' as (? & -> & _). apply tone_bound.
Qed.

Lemma plot_generate_scale_octave_witness :
  ∃ root_n,
    normalize_note "a" true = Ok root_n
    ∧ head ["A"; "C"; "D"; "Eb"; "E"; "G"; "A"] = Some root_n
    ∧ (Str.startswith "pentatonic" "blues" = false →
       length ["A"; "C"; "D"; "Eb"; "E"; "G"; "A"] = 7%nat
       ∧ last ["A"; "C"; "D"; "Eb"; "E"; "G"; "A"] = Some root_n
       ∧ ¬ NoDup ["A"; "C"; "D"; "Eb"; "E"; "G"; "A"])
    ∧ (Str.startswith "pentatonic" "blues" = true →
       length ["A"; "C"; "D"; "Eb"; "E"; "G"; "A"] = 6%nat
       ∧ NoDup ["A"; "C"; "D"; "Eb"; "E"; "G"; "A"]).
Proof.
  apply (plot_generate_scale_octave "a" "blues" true [3; 2; 1; 1; 3; 2]).
  - reflexivity.
  - reflexivity.
Defined.
Section front_ends.
Implicit Types (use_flats : bool) (s : string).



Lemma lstrip_chars (P : ascii → Prop) s : Spec.chars P s → Spec.chars P (Str.lstrip s).
Proof.
  induction 1 as [|c s Hc Hs IH]; simpl; [constructor|].
  destruct (Str.is_space c); [done|by constructor].
Qed.

Lemma rstrip_chars (P : ascii → Prop) s : Spec.chars P s → Spec.chars P (Str.rstrip s).
Proof.
  induction 1 as [|c s Hc Hs IH]; simpl; [constructor|].
  destruct (Str.rstrip s); [destruct (Str.is_space c); by repeat constructor|by constructor].
Qed.

Lemma strip_chars (P : ascii → Prop) s : Spec.chars P s → Spec.chars P (Str.strip s).
Proof. intros Hs. by apply rstrip_chars, lstrip_chars. Qed.

Lemma strip_all_space s : Str.all Str.is_space s = true → Str.strip s = "".
Proof. intros Hs. unfold Str.strip. by rewrite lstrip_all_space. Qed.
End front_ends.

(** [main] of [fretboard_plot.py] ends with an [IndexError] when the scale
    input is not blank but holds no token, as a lone comma, and no root is
    given: it takes the first note of an empty scale as the root. *)
Theorem plot_main_index_error (a : Plot.args) :
  Plot.degrees a = false →
  Str.strip (Plot.scale_input a) ≠ "" →
  raw_tokens (Plot.scale_input a) = [] →
  Str.strip (Plot.root a) = "" →
  Forall (λ x, ∃ m, normalize_note x (Plot.use_flats a) = Ok m) (Str.split (Plot.tuning a)) →
  Plot.main a = Raise IndexError.
Proof.
  intros Hdeg Hinput Hraw Hroot Htuning. unfold Plot.main.
  rewrite Hdeg, Hroot, (bool_decide_eq_false_2 _ Hinput). cbn [negb andb].
  unfold parse_notes_text. rewrite Hraw. cbn [comprehension]. rewrite bind_Ok.
  destruct (comprehension_total _ _ Htuning) as [t ->]. rewrite bind_Ok.
  by rewrite bool_decide_eq_true_2.
Qed.

Lemma plot_main_index_error_witness :
  Plot.main {| Plot.scale_input := ","; Plot.degrees := false; Plot.root := "";
               Plot.mode := ""; Plot.frets := 12; Plot.tuning := "E A D G B E";
               Plot.use_flats := false |} = Raise IndexError.
Proof.
  apply plot_main_index_error.
  - reflexivity.
  - discriminate.
  - reflexivity.
  - reflexivity.
  - change (Str.split _) with ["E"; "A"; "D"; "G"; "B"; "E"].
    repeat constructor; by eexists.
Defined.



(** ** [fretboard_gui.py] *)

(** In the Scale mode, for a scale of the table and a root that
    normalises, [_compute_notes] returns the scale the root generates and
    the root in the chosen spelling, which is the first note of that scale:
    the root that [draw] rings is always among the notes it marks. *)
Theorem compute_notes_scale (w : Gui.widgets) (scale_modes : gmap string (list Z))
    (key root_n : string) (steps : list Z) :
  Gui.mode_combo w ≠ "Notes" → Gui.mode_combo w ≠ "Degrees" →
  Gui.scale_display_to_key w !! Gui.scale_combo w = Some key →
  scale_modes !! key = Some steps →
  normalize_note (Gui._get_root w) (Gui.use_flats_cb w) = Ok root_n →
  ∃ rest,
    Gui._compute_notes w scale_modes = Ok (root_n :: rest, root_n)
    ∧ generate_scale (Gui._get_root w) key scale_modes (Gui.use_flats_cb w)
      = Ok (root_n :: rest)
    ∧ NoDup (root_n :: rest).
Proof.
  intros Hnotes Hdeg Hkey Hsteps Hroot.
  assert (∃ root_s, normalize_note (Gui._get_root w) false = Ok root_s) as [root_s Hs].
  { destruct (normalize_note (Gui._get_root w) false) as [m|e] eqn:Hm; [eauto|].
    destruct (Gui.use_flats_cb w); [|congruence].
    rewrite (proj2 (normalize_sharp_flat _) e Hm) in Hroot. done. }
  destruct (generate_scale_tones _ _ _ (Gui.use_flats_cb w) _ _ Hsteps Hs)
    as (root_idx & _ & _ & _ & Hgen).
  destruct (scale_result _ _ _ _ _ Hgen) as ((r & rest & Hr & Hl) & Hnd & _).
  assert (r = root_n) as -> by congruence.
  exists rest. rewrite <-Hl. split_and!; [|done|done].
  unfold Gui._compute_notes, dict_get.
  rewrite !bool_decide_eq_false_2 by done.
  rewrite Hroot, bind_Ok, Hkey, bind_Ok.
  unfold generate_scale at 1. rewrite (normalize_of_normalized _ _ _ Hroot).
  fold (generate_scale (Gui._get_root w) key scale_modes (Gui.use_flats_cb w)).
  by rewrite Hgen, bind_Ok.
Qed.

Lemma compute_notes_scale_witness :
  ∃ rest,
    Gui._compute_notes
      {| Gui.mode_combo := "Scale"; Gui.use_flats_cb := true; Gui.root_combo := " eb ";
         Gui.notes_edit := ""; Gui.deg_edit := ""; Gui.scale_combo := "Blues";
         Gui.scale_display_to_key := {["Blues" := "blues"]} |} SCALE_MODES
    = Ok ("Eb" :: rest, "Eb")
    ∧ generate_scale "eb" "blues" SCALE_MODES true = Ok ("Eb" :: rest)
    ∧ NoDup ("Eb" :: rest).
Proof.
  apply (compute_notes_scale
           {| Gui.mode_combo := "Scale"; Gui.use_flats_cb := true; Gui.root_combo := " eb ";
              Gui.notes_edit := ""; Gui.deg_edit := ""; Gui.scale_combo := "Blues";
              Gui.scale_display_to_key := {["Blues" := "blues"]} |}
           SCALE_MODES "blues" "Eb" [3; 2; 1; 1; 3; 2]).
  - discriminate.
  - discriminate.
  - reflexivity.
  - vm_compute. reflexivity.
  - reflexivity.
Defined.

(** An empty field in the GUI.  In the Notes mode a field of white space
    and commas gives no notes and no error.  In the Degrees mode a field of
    white space only gives no notes and no error, but a field of white
    space and commas with a comma in it raises [No degree tokens
    provided].  A blank root field stands for C. *)
Theorem compute_notes_blank (w : Gui.widgets) (scale_modes : gmap string (list Z)) :
  (Str.strip (Gui.root_combo w) = "" → Gui._get_root w = "C")
  ∧ (∀ root_n,
       normalize_note (Gui._get_root w) (Gui.use_flats_cb w) = Ok root_n →
       (Gui.mode_combo w = "Notes" → Spec.chars Spec.blank (Gui.notes_edit w) →
        Gui._compute_notes w scale_modes = Ok ([], root_n))
       ∧ (Gui.mode_combo w = "Degrees" → Str.all Str.is_space (Gui.deg_edit w) = true →
          Gui._compute_notes w scale_modes = Ok ([], root_n)))
  ∧ (Gui.mode_combo w = "Degrees" →
     Spec.chars Spec.blank (Gui.deg_edit w) → Str.strip (Gui.deg_edit w) ≠ "" →
     Gui._compute_notes w scale_modes = Raise (ValueError "No degree tokens provided")).
Proof.
  split_and!.
  - intros Hroot. unfold Gui._get_root. by rewrite Hroot.
  - intros root_n Hroot. split.
    + intros Hmode Hblank. unfold Gui._compute_notes.
      rewrite Hmode, bool_decide_eq_true_2 by done.
      case_bool_decide.
      * by rewrite bind_Ok, Hroot.
      * unfold parse_notes_text.
        rewrite raw_tokens_blank by (by apply strip_chars). cbn [comprehension].
        by rewrite bind_Ok, Hroot.
    + intros Hmode Hblank. unfold Gui._compute_notes.
      rewrite Hmode, bool_decide_eq_false_2, bool_decide_eq_true_2 by done.
      rewrite (strip_all_space _ Hblank), bool_decide_eq_true_2 by done.
      by rewrite Hroot.
  - intros Hmode Hblank Hne. unfold Gui._compute_notes.
    rewrite Hmode, bool_decide_eq_false_2, bool_decide_eq_true_2 by done.
    rewrite bool_decide_eq_false_2 by done.
    unfold degrees_to_notes_text.
    by rewrite raw_tokens_blank by (by apply strip_chars).
Qed.

Lemma compute_notes_blank_witness :
  Gui._compute_notes
    {| Gui.mode_combo := "Degrees"; Gui.use_flats_cb := false; Gui.root_combo := "";
       Gui.notes_edit := ""; Gui.deg_edit := " , "; Gui.scale_combo := "";
       Gui.scale_display_to_key := ∅ |} SCALE_MODES
  = Raise (ValueError "No degree tokens provided").
Proof.
  apply (proj2 (proj2 (compute_notes_blank _ SCALE_MODES))).
  - reflexivity.
  - constructor; [left; reflexivity|].
    constructor; [right; reflexivity|].
    constructor; [left; reflexivity|].
    constructor.
  - discriminate.
Defined.

(** Whatever [_compute_notes] returns is spelled the way [draw] spells the
    board: the root is the normalised root field, and it and every note
    are names of the spelling the check box chooses. *)
Theorem compute_notes_names (w : Gui.widgets) (scale_modes : gmap string (list Z))
    (notes : list string) (root_n : string) :
  Gui._compute_notes w scale_modes = Ok (notes, root_n) →
  let names := if Gui.use_flats_cb w then CHROMATIC_FLATS else CHROMATIC_SHARPS in
  normalize_note (Gui._get_root w) (Gui.use_flats_cb w) = Ok root_n
  ∧ root_n ∈ names
  ∧ Forall (λ x, x ∈ names) notes.
Proof.
  intros Hok names. unfold Gui._compute_notes in Hok. cbv zeta in Hok.
  assert (normalize_note (Gui._get_root w) (Gui.use_flats_cb w) = Ok root_n
          ∧ Forall (λ x, x ∈ names) notes) as [Hroot Hnotes].
  { revert Hok.
    destruct (normalize_note (Gui._get_root w) (Gui.use_flats_cb w)) as [r|e] eqn:Hr.
    2: { repeat case_bool_decide;
           try destruct (parse_notes_text _ _);
           try destruct (degrees_to_notes_text _ _ _);
           rewrite ?bind_Ok, ?bind_Raise; done. }
    case_bool_decide as Hnotes; [|case_bool_decide as Hdeg].
    - case_bool_decide as Htext.
      + rewrite !bind_Ok. intros [= <- <-]. by split.
      + destruct (parse_notes_text _ _) as [ns|e] eqn:Hns; [|done].
        rewrite !bind_Ok. intros [= <- <-]. split; [done|].
        by eapply names_of_notes.
    - case_bool_decide as Htext.
      + rewrite !bind_Ok. intros [= <- <-]. by split.
      + destruct (degrees_to_notes_text _ _ _) as [ns|e] eqn:Hns; [|done].
        rewrite !bind_Ok. intros [= <- <-]. split; [done|].
        by apply degrees_result in Hns as (_ & _ & ? & _).
    - rewrite bind_Ok.
      destruct (dict_get _ _) as [key|e]; [|done]. rewrite bind_Ok.
      destruct (generate_scale _ _ _ _) as [ns|e] eqn:Hns; [|done].
      rewrite bind_Ok. intros [= <- <-]. split; [done|].
      by apply scale_result in Hns as (_ & _ & ? & _). }
  split_and!; [done| |done]. by eapply normalize_note_range.
Qed.

Lemma compute_notes_names_witness :
  normalize_note "C" false = Ok "C"
  ∧ "C" ∈ CHROMATIC_SHARPS
  ∧ Forall (λ x, x ∈ CHROMATIC_SHARPS) ["A#"; "D"].
Proof.
  apply (compute_notes_names
           {| Gui.mode_combo := "Notes"; Gui.use_flats_cb := false; Gui.root_combo := "  ";
              Gui.notes_edit := "bb, d"; Gui.deg_edit := ""; Gui.scale_combo := "";
              Gui.scale_display_to_key := ∅ |} SCALE_MODES).
  reflexivity.
Defined.
